(** * SBGC-Simulink: the memoryless decode block [sfun_decode_nomem]

    A shallow embedding of [mdlOutputs] (sfun_decode_nomem.cpp) together with
    the frame decoder it drives, and the properties of the decode cycle. *)

From Stdlib Require Import ZArith List Bool Lia Floats.
From coqutil Require Import Byte.
Import ListNotations.

Local Open Scope Z_scope.

(** ** Machine types of the source

    A [uint8_T] is a [byte], with numeric value [byte.unsigned]. *)

(** [uint16_T]: an integer kept modulo [2^16]. *)
Definition uint16_T (z : Z) : Z := z mod 2 ^ 16.

(** [real_T] outputs only ever receive [-1], [0] or the value of a [uint8_T];
    all of these are exact doubles, so an output port holds the integer. *)
Definition real_of_uint8 (b : byte) : Z := byte.unsigned b.

(** One recorded call [done = sbgc_parser.process_char(c)]: the argument and
    the value returned. *)
Record call := mkCall { call_arg : byte; call_ret : byte }.

(** ** The parser interface used by [mdlOutputs]

    [SBGC_Parser] lives in the SBGC library (SBGC.h); [mdlOutputs] uses only
    these five members.  A parser object is a value of type [P]; a member
    function that mutates the object returns the new object. *)
Class SBGC_ParserOps (P : Type) := {
  init_noCom : P;
  get_parse_error_count : P -> Z;
  process_char : P -> byte -> P * byte;
  reset : P -> P;
  in_cmd_id : P -> byte
}.

(** ** The S-function block *)

(** The part of the [SimStruct] that [mdlOutputs] touches: the two input
    signals and the two output signals.  Output port 1 is [None] when it was
    assigned from a local that was never written. *)
Record SimStruct := mkSimStruct {
  InputPortSignal0 : list byte;      (* uvec, width ssGetInputPortWidth(S,0) *)
  InputPortSignal1 : float;          (* status[0] *)
  OutputPortSignal0 : Z;             (* y0[0] *)
  OutputPortSignal1 : option Z       (* y1[0] *)
}.

Definition set_outputs (S : SimStruct) (a : Z) (b : option Z) : SimStruct :=
  {| InputPortSignal0 := InputPortSignal0 S;
     InputPortSignal1 := InputPortSignal1 S;
     OutputPortSignal0 := a;
     OutputPortSignal1 := b |}.

Definition set_inputs (S : SimStruct) (u : list byte) (st : float) : SimStruct :=
  {| InputPortSignal0 := u;
     InputPortSignal1 := st;
     OutputPortSignal0 := OutputPortSignal0 S;
     OutputPortSignal1 := OutputPortSignal1 S |}.

Section Block.

Context {P : Type} {ops : SBGC_ParserOps P}.

(** Local variables of [mdlOutputs] that live across the byte loop.  [done]
    is declared without an initialiser, hence the [option].  [calls] is the
    history of [process_char] calls, oldest first. *)
Record locals := mkLocals {
  sbgc_parser : P;
  numErr_start : Z;
  done : option byte;
  y0 : Z;
  uidx : nat;
  calls : list call
}.

(** The body of the [for] loop at one byte [c = uvec[uidx]]: the call of
    [process_char]; the [reset] when the error count has grown past
    [numErr_start]; the copy of [in_cmd.id] to [y0] and the [break] when
    [done > 0].  The boolean tells whether the body left through [break]. *)
Definition loop_body (c : byte) (l : locals) : locals * bool :=
  let (p1, d) := process_char (sbgc_parser l) c in
  let errs := get_parse_error_count p1 in
  let (p2, n2) :=
    if numErr_start l <? errs
    then (reset p1, uint16_T errs)
    else (p1, numErr_start l) in
  let hist := calls l ++ [mkCall c d] in
  if 0 <? byte.unsigned d
  then (mkLocals p2 n2 (Some d) (real_of_uint8 (in_cmd_id p2)) (uidx l) hist, true)
  else (mkLocals p2 n2 (Some d) (y0 l) (uidx l) hist, false).

Definition next_uidx (l : locals) : locals :=
  mkLocals (sbgc_parser l) (numErr_start l) (done l) (y0 l) (S (uidx l)) (calls l).

(** [for (uidx = ...; uidx < len_uvec; uidx++)] over the bytes
    [uvec[uidx], uvec[uidx+1], ...] that are still ahead. *)
Fixpoint for_loop (ahead : list byte) (l : locals) : locals :=
  match ahead with
  | [] => l
  | c :: ahead' =>
      let (l', brk) := loop_body c l in
      if brk then l' else for_loop ahead' (next_uidx l')
  end.

(** Locals on entry to the loop: [y0[0] = 0] is preset, the parser is
    constructed and initialised with [init_noCom], [numErr_start] holds its
    error count, and [done] has not been assigned. *)
Definition loop_entry : locals :=
  mkLocals init_noCom (uint16_T (get_parse_error_count init_noCom)) None 0 0%nat [].

(** [mdlOutputs]: the block after the call, and the [process_char] calls
    the call made.  With [status[0] < 0.5f] both outputs are set to -1 and
    the function returns; otherwise the loop runs over the [len_uvec] bytes
    of input port 0 and [y1[0]] receives [done]. *)
Definition mdlOutputs (S : SimStruct) : SimStruct * list call :=
  if (InputPortSignal1 S <? 0.5)%float
  then (set_outputs S (-1) (Some (-1)), [])
  else
    let l := for_loop (InputPortSignal0 S) loop_entry in
    (set_outputs S (y0 l) (option_map real_of_uint8 (done l)), calls l).

(** [done > 0]: the test that guards [break]. *)
Definition stopped (l : locals) : bool :=
  match done l with
  | Some d => 0 <? byte.unsigned d
  | None => false
  end.

End Block.

Arguments locals : clear implicits.

Definition outputs (S : SimStruct) : Z * option Z :=
  (OutputPortSignal0 S, OutputPortSignal1 S).

(** The guard [status[0] < 0.5f] is false: the cycle carries data. *)
Definition input_valid (status : float) : Prop := (status <? 0.5)%float = false.

(** A call of [process_char] that reported a complete frame ([done > 0]). *)
Definition frame_call (k : call) : Prop := 0 < byte.unsigned (call_ret k).

(** The width [mdlInitializeSizes] gives input port 0; the macro
    [SBGC_CMD_MAX_BYTES] comes from SBGC.h and is a parameter here. *)
Definition port_sized (SBGC_CMD_MAX_BYTES : nat) (S : SimStruct) : Prop :=
  length (InputPortSignal0 S) = SBGC_CMD_MAX_BYTES.

(** ** The frame decoder

    The class [SBGC_Parser] is declared in SBGC.h, which is not among the
    sources of the block; the decoder below is the state machine the
    specification describes for it. *)

Module SBGC.

(** Modelled from the spec: the states of SBGC_Parser (SBGC.h is missing):
    "SEEK_HEADER, READ_CMD_ID, READ_LENGTH, VERIFY_HEADER_CHECKSUM,
    READ_PAYLOAD, VERIFY_PAYLOAD_CHECKSUM, DONE". *)
Inductive phase :=
| SEEK_HEADER | READ_CMD_ID | READ_LENGTH | VERIFY_HEADER_CHECKSUM
| READ_PAYLOAD | VERIFY_PAYLOAD_CHECKSUM | DONE.

(** Modelled from the spec: the outcomes of feeding one byte to SBGC_Parser
    (SBGC.h is missing). *)
Inductive feed_result := CONTINUE | FRAME_READY | FRAME_DISCARDED.

(** Modelled from the spec: the data members of SBGC_Parser (SBGC.h is
    missing): the phase, the accumulated fields of the frame in progress,
    and the count of frames discarded for a checksum failure. *)
Record decoder := mkDecoder {
  cur_phase : phase;
  id_buf : byte;
  len_buf : byte;
  payload_buf : list byte;
  error_count : Z
}.

(** Modelled from the spec: the synchronisation byte of the protocol (its
    macro in SBGC.h is missing): 0x3E, the character '>'; the source comment
    of [mdlOutputs] gives the same value, 62. *)
Definition header : byte := Byte.x3e.

(** Modelled from the spec: the checksum of SBGC_Parser (SBGC.h is missing):
    "a simple additive (modulo-256) checksum over the covered byte range". *)
Definition checksum (bs : list byte) : byte :=
  byte.of_Z (fold_left (fun acc b => acc + byte.unsigned b) bs 0).

(** Modelled from the spec: the error transition of SBGC_Parser (SBGC.h is
    missing): "increment error_count, transition to SEEK_HEADER, report
    FRAME_DISCARDED".  The count is a [uint16_T], as [mdlOutputs] reads it. *)
Definition discard (d : decoder) : decoder * feed_result :=
  (mkDecoder SEEK_HEADER (id_buf d) (len_buf d) (payload_buf d)
             (uint16_T (error_count d + 1)),
   FRAME_DISCARDED).

(** Modelled from the spec: the body of [SBGC_Parser::process_char] (SBGC.h
    is missing), as the operation [feed(byte)] of the decoder state machine,
    state by state. *)
Definition feed (d : decoder) (c : byte) : decoder * feed_result :=
  match cur_phase d with
  | SEEK_HEADER =>
      if Byte.eqb c header
      then (mkDecoder READ_CMD_ID Byte.x00 Byte.x00 [] (error_count d), CONTINUE)
      else (d, CONTINUE)
  | READ_CMD_ID =>
      (mkDecoder READ_LENGTH c (len_buf d) (payload_buf d) (error_count d),
       CONTINUE)
  | READ_LENGTH =>
      (mkDecoder VERIFY_HEADER_CHECKSUM (id_buf d) c (payload_buf d)
                 (error_count d),
       CONTINUE)
  | VERIFY_HEADER_CHECKSUM =>
      if Byte.eqb c (checksum [id_buf d; len_buf d])
      then
        (mkDecoder (if byte.unsigned (len_buf d) =? 0
                    then VERIFY_PAYLOAD_CHECKSUM else READ_PAYLOAD)
                   (id_buf d) (len_buf d) (payload_buf d) (error_count d),
         CONTINUE)
      else discard d
  | READ_PAYLOAD =>
      let pl := payload_buf d ++ [c] in
      (mkDecoder (if Z.of_nat (length pl) =? byte.unsigned (len_buf d)
                  then VERIFY_PAYLOAD_CHECKSUM else READ_PAYLOAD)
                 (id_buf d) (len_buf d) pl (error_count d),
       CONTINUE)
  | VERIFY_PAYLOAD_CHECKSUM =>
      if Byte.eqb c (checksum (payload_buf d))
      then
        (mkDecoder DONE (id_buf d) (len_buf d) (payload_buf d) (error_count d),
         FRAME_READY)
      else discard d
  | DONE => (d, CONTINUE)
  end.

(** Modelled from the spec: [SBGC_Parser::init_noCom] (SBGC.h is missing):
    a decoder "created fresh", in its initial state [SEEK_HEADER], no error
    counted. *)
Definition fresh : decoder := mkDecoder SEEK_HEADER Byte.x00 Byte.x00 [] 0.

(** Modelled from the spec: [SBGC_Parser::process_char] (SBGC.h is missing):
    one [feed]; by the source comment of [mdlOutputs] it "returns 0 while
    busy" and "1 when done". *)
Definition process_char (d : decoder) (c : byte) : decoder * byte :=
  let (d', r) := feed d c in
  (d', match r with FRAME_READY => Byte.x01 | _ => Byte.x00 end).

(** Modelled from the spec: [SBGC_Parser::reset] (SBGC.h is missing): the
    return to header search. *)
Definition reset (d : decoder) : decoder :=
  mkDecoder SEEK_HEADER (id_buf d) (len_buf d) (payload_buf d) (error_count d).

(** Modelled from the spec: SBGC_Parser as [mdlOutputs] uses it (SBGC.h is
    missing); [get_parse_error_count] reads the error count and [in_cmd.id]
    the stored command identifier. *)
#[global] Instance parser_ops : SBGC_ParserOps decoder :=
  Build_SBGC_ParserOps decoder fresh error_count process_char reset id_buf.

(** Feeding a run of bytes during which no frame completes; [None] when a
    frame does complete inside the run. *)
Fixpoint feeds (d : decoder) (bs : list byte) : option decoder :=
  match bs with
  | [] => Some d
  | c :: bs' =>
      match feed d c with
      | (_, FRAME_READY) => None
      | (d', _) => feeds d' bs'
      end
  end.

End SBGC.

(** ** Frames on the wire *)

(** Modelled from the spec: the frame of the protocol (SBGC.h is missing),
    without its fixed header byte: command id, payload length, header
    checksum, payload, payload checksum. *)
Record Frame := mkFrame {
  command_id : byte;
  payload_length : byte;
  header_checksum : byte;
  payload : list byte;
  payload_checksum : byte
}.

(** Modelled from the spec: the byte layout of a frame (SBGC.h is missing),
    in the order in which the decoder reads the fields. *)
Definition frame_bytes (f : Frame) : list byte :=
  SBGC.header :: command_id f :: payload_length f :: header_checksum f
    :: payload f ++ [payload_checksum f].

(** The length field announces the payload that follows. *)
Definition length_ok (f : Frame) : Prop :=
  byte.unsigned (payload_length f) = Z.of_nat (length (payload f)).

(** The header checksum covers command id and payload length. *)
Definition header_checksum_ok (f : Frame) : Prop :=
  header_checksum f = SBGC.checksum [command_id f; payload_length f].

(** The payload checksum covers the payload bytes. *)
Definition payload_checksum_ok (f : Frame) : Prop :=
  payload_checksum f = SBGC.checksum (payload f).

(** "Complete and valid": both checksums match. *)
Definition well_formed (f : Frame) : Prop :=
  length_ok f /\ header_checksum_ok f /\ payload_checksum_ok f.

(** Valid header byte and length field, but a wrong header or payload
    checksum. *)
Definition corrupted (f : Frame) : Prop :=
  length_ok f /\ (~ header_checksum_ok f \/ ~ payload_checksum_ok f).

(** The well-formed frame carrying [pl] under command [id]. *)
Definition encode (id : byte) (pl : list byte) : Frame :=
  let len := byte.of_Z (Z.of_nat (length pl)) in
  mkFrame id len (SBGC.checksum [id; len]) pl (SBGC.checksum pl).

(** One decode cycle of the block around the frame decoder, on a block whose
    outputs were never written: (Output A, Output B). *)
Definition decode (uvec : list byte) (status : float) : Z * option Z :=
  outputs (fst (mdlOutputs (ops := SBGC.parser_ops)
                           (mkSimStruct uvec status 0 None))).

(** ** Sample blocks and frames *)

(** A six-byte port holding the frame [3E 01 00 01 00] and one byte of
    padding, flag 1.0. *)
Definition port_one_frame : SimStruct :=
  mkSimStruct [Byte.x3e; Byte.x01; Byte.x00; Byte.x01; Byte.x00; Byte.xff]
              1%float 0 None.

(** A two-byte port without the header byte, flag 1.0. *)
Definition port_no_header : SimStruct :=
  mkSimStruct [Byte.x00; Byte.x01] 1%float 0 None.

(** A frame whose payload checksum is wrong (it should be 0x03). *)
Definition frame_bad_payload : Frame :=
  mkFrame Byte.x05 Byte.x02 Byte.x07 [Byte.x01; Byte.x02] Byte.x00.

(** ** Notions used in the proofs *)

(** What [process_char] returns for each outcome of [SBGC.feed]. *)
Definition ret_of (r : SBGC.feed_result) : byte :=
  match r with SBGC.FRAME_READY => Byte.x01 | _ => Byte.x00 end.

(** The [process_char] call of a byte during which nothing completes. *)
Definition quiet_call (c : byte) : call := mkCall c Byte.x00.

(** The error count seen by the parser never exceeds the one the loop
    remembers in [numErr_start]. *)
Definition errs_seen (l : locals SBGC.decoder) : Prop :=
  SBGC.error_count (sbgc_parser l) <= numErr_start l.

(** How the bytes consumed so far and the decoder state hang together: in
    every phase after header search the consumed bytes end with the part of
    a frame read so far, checked as far as it has been read. *)
Definition tracks (consumed : list byte) (d : SBGC.decoder) : Prop :=
  let id := SBGC.id_buf d in
  let len := SBGC.len_buf d in
  let pl := SBGC.payload_buf d in
  match SBGC.cur_phase d with
  | SBGC.SEEK_HEADER | SBGC.DONE => True
  | SBGC.READ_CMD_ID =>
      exists pre, consumed = pre ++ [SBGC.header] /\ pl = []
  | SBGC.READ_LENGTH =>
      exists pre, consumed = pre ++ [SBGC.header; id] /\ pl = []
  | SBGC.VERIFY_HEADER_CHECKSUM =>
      exists pre, consumed = pre ++ [SBGC.header; id; len] /\ pl = []
  | SBGC.READ_PAYLOAD =>
      exists pre,
        consumed = pre ++ [SBGC.header; id; len; SBGC.checksum [id; len]] ++ pl
        /\ Z.of_nat (length pl) < byte.unsigned len
  | SBGC.VERIFY_PAYLOAD_CHECKSUM =>
      exists pre,
        consumed = pre ++ [SBGC.header; id; len; SBGC.checksum [id; len]] ++ pl
        /\ Z.of_nat (length pl) = byte.unsigned len
  end.

(** ** The parser as the loop drives it

    What the successive calls [sbgc_parser.process_char(uvec[uidx])] are
    made on and what they return, written down from lines 171-176 on the
    parser object alone, without the loop around it. *)

Section Driven.

Context {P : Type} {ops : SBGC_ParserOps P}.

(** The parser object and [numErr_start] held by the locals. *)
Definition driven (l : locals P) : P * Z := (sbgc_parser l, numErr_start l).

(** The parser object and [numErr_start] on entry to the loop. *)
Definition driver_start : P * Z :=
  (init_noCom, uint16_T (get_parse_error_count init_noCom)).

(** The parser object and [numErr_start] after one more byte [c]: the
    object is the one [process_char] leaves, [reset] when its error count
    exceeds [numErr_start], which then takes that count. *)
Definition after_byte (st : P * Z) (c : byte) : P * Z :=
  let p1 := fst (process_char (fst st) c) in
  if snd st <? get_parse_error_count p1
  then (reset p1, uint16_T (get_parse_error_count p1))
  else (p1, snd st).

(** The parser object and [numErr_start] after the bytes [bs], fed from a
    freshly initialised parser. *)
Definition after_bytes (bs : list byte) : P * Z :=
  fold_left after_byte bs driver_start.

(** What [process_char] returns for the byte [c] when the bytes [bs] have
    been fed before it. *)
Definition returned_after (bs : list byte) (c : byte) : byte :=
  snd (process_char (fst (after_bytes bs)) c).

(** The calls [process_char(c)] on the bytes [bs] in order, from the parser
    object of [st], each with the value [process_char] returns. *)
Fixpoint calls_from (st : P * Z) (bs : list byte) : list call :=
  match bs with
  | [] => []
  | c :: bs' =>
      mkCall c (snd (process_char (fst st) c)) :: calls_from (after_byte st c) bs'
  end.

End Driven.

(** ** What the source says of [process_char]

    The comment in the byte loop of [mdlOutputs] states what the block relies
    on: [process_char] "discards any first character that is not the header
    char '>', i.e 62", "returns 0 while busy" and "returns 1 when done". *)

(** The header char '>', i.e. 62. *)
Definition header_char : byte := Byte.x3e.

(** [process_char] returns 0 (busy) or 1 (done). *)
Definition returns_busy_or_done {P : Type} (ops : SBGC_ParserOps P) : Prop :=
  forall (p : P) (c : byte),
    snd (process_char p c) = Byte.x00 \/ snd (process_char p c) = Byte.x01.

(** A freshly initialised parser discards a character that is not the header
    char: it stays as it is and reports "busy". *)
Definition discards_before_header {P : Type} (ops : SBGC_ParserOps P) : Prop :=
  forall c : byte,
    c <> header_char -> process_char init_noCom c = (init_noCom, Byte.x00).

(** The error count of a freshly initialised parser fits the [uint16_T]
    variable [numErr_start] that receives it. *)
Definition error_count_fits {P : Type} (ops : SBGC_ParserOps P) : Prop :=
  0 <= get_parse_error_count init_noCom < 2 ^ 16.

(** Two sets of loop locals that agree on all but the loop index and the
    history of calls. *)
Definition same_core {P : Type} (l l' : locals P) : Prop :=
  sbgc_parser l = sbgc_parser l' /\ numErr_start l = numErr_start l' /\
  done l = done l' /\ y0 l = y0 l'.

(** ** Facts about the byte loop, for every parser *)

Section LoopFacts.

Context {P : Type} {ops : SBGC_ParserOps P}.

(** The four paths through the loop body: error seen or not, frame done or
    not. *)
Ltac loop_body_cases c l :=
  unfold loop_body;
  destruct (process_char (sbgc_parser l) c) as [p1 d]; cbn [snd];
  destruct (numErr_start l <? get_parse_error_count p1);
  destruct (0 <? byte.unsigned d); reflexivity.

Lemma loop_body_done c l :
  done (fst (loop_body c l)) = Some (snd (process_char (sbgc_parser l) c)).
Proof.
  loop_body_cases c l.
Qed.

Lemma loop_body_calls c l :
  calls (fst (loop_body c l)) =
  calls l ++ [mkCall c (snd (process_char (sbgc_parser l) c))].
Proof.
  loop_body_cases c l.
Qed.

Lemma loop_body_uidx c l : uidx (fst (loop_body c l)) = uidx l.
Proof.
  loop_body_cases c l.
Qed.

Lemma loop_body_brk c l :
  snd (loop_body c l) = stopped (fst (loop_body c l)).
Proof.
  unfold stopped. rewrite loop_body_done. loop_body_cases c l.
Qed.

Lemma loop_body_y0 c l :
  y0 (fst (loop_body c l)) =
  if snd (loop_body c l)
  then real_of_uint8 (in_cmd_id (sbgc_parser (fst (loop_body c l))))
  else y0 l.
Proof.
  loop_body_cases c l.
Qed.

Lemma stopped_next_uidx (l : locals P) : stopped (next_uidx l) = stopped l.
Proof. reflexivity. Qed.

Lemma for_loop_cons c ahead l :
  for_loop (c :: ahead) l =
  if stopped (fst (loop_body c l))
  then fst (loop_body c l)
  else for_loop ahead (next_uidx (fst (loop_body c l))).
Proof.
  simpl. rewrite <- loop_body_brk. destruct (loop_body c l) as [l' brk].
  reflexivity.
Qed.

Lemma for_loop_nil (l : locals P) : for_loop [] l = l.
Proof. reflexivity. Qed.

#[local] Arguments for_loop : simpl never.

(** Running the loop over [a ++ b]: unless the loop left through [break]
    inside [a], it continues over [b] from where [a] ended. *)
Lemma for_loop_app a b : forall l,
  stopped l = false ->
  for_loop (a ++ b) l =
  if stopped (for_loop a l) then for_loop a l else for_loop b (for_loop a l).
Proof.
  induction a as [|c a IH]; intros l Hl.
  - rewrite app_nil_l, for_loop_nil, Hl. reflexivity.
  - rewrite <- app_comm_cons, !for_loop_cons.
    destruct (stopped (fst (loop_body c l))) eqn:E.
    + rewrite E. reflexivity.
    + apply IH. rewrite stopped_next_uidx. exact E.
Qed.

(** What the loop has done when it ends: the bytes [fed] to [process_char]
    are an initial segment of the bytes ahead, in order; either that is all
    of them and no call reported a frame, or the last call did and the loop
    left at once. *)
Lemma for_loop_history ahead : forall l,
  stopped l = false ->
  exists new,
    calls (for_loop ahead l) = calls l ++ new /\
    if stopped (for_loop ahead l)
    then exists quiet k rest,
           new = quiet ++ [k] /\
           ahead = map call_arg new ++ rest /\
           Forall (fun q => ~ frame_call q) quiet /\ frame_call k /\
           uidx (for_loop ahead l) = (uidx l + length quiet)%nat /\
           y0 (for_loop ahead l) =
             real_of_uint8 (in_cmd_id (sbgc_parser (for_loop ahead l))) /\
           (forall rest',
              for_loop (map call_arg new ++ rest') l = for_loop ahead l)
    else ahead = map call_arg new /\
         Forall (fun q => ~ frame_call q) new /\
         uidx (for_loop ahead l) = (uidx l + length ahead)%nat /\
         y0 (for_loop ahead l) = y0 l.
Proof.
  induction ahead as [|c ahead IH]; intros l Hl.
  - exists []. rewrite for_loop_nil, Hl, app_nil_r. simpl. repeat split; auto.
  - rewrite for_loop_cons.
    pose proof (loop_body_done c l) as Hd.
    pose proof (loop_body_calls c l) as Hc.
    pose proof (loop_body_uidx c l) as Hu.
    pose proof (loop_body_y0 c l) as Hy.
    rewrite loop_body_brk in Hy.
    set (d := snd (process_char (sbgc_parser l) c)) in *.
    destruct (stopped (fst (loop_body c l))) eqn:E.
    + exists [mkCall c d]. rewrite E. split; [exact Hc|].
      exists [], (mkCall c d), ahead. simpl.
      repeat split; auto.
      * unfold frame_call. simpl. unfold stopped in E. rewrite Hd in E.
        apply Z.ltb_lt. exact E.
      * rewrite Hu. lia.
      * intros rest'. rewrite for_loop_cons, E. reflexivity.
    + destruct (IH (next_uidx (fst (loop_body c l)))) as [new [Hn Hrest]].
      { rewrite stopped_next_uidx. exact E. }
      assert (Hq : ~ frame_call (mkCall c d)).
      { unfold frame_call. simpl. unfold stopped in E. rewrite Hd in E.
        apply Z.ltb_ge in E. lia. }
      exists (mkCall c d :: new). split.
      { rewrite Hn. simpl. rewrite Hc, <- app_assoc. reflexivity. }
      destruct (stopped (for_loop ahead (next_uidx (fst (loop_body c l))))).
      * destruct Hrest as (quiet & k & rest & H1 & H2 & H3 & H4 & H5 & H6 & H7).
        exists (mkCall c d :: quiet), k, rest. simpl in *.
        repeat split; auto.
        -- rewrite H1. reflexivity.
        -- rewrite H2. reflexivity.
        -- rewrite H5, Hu. lia.
        -- intros rest'. rewrite for_loop_cons, E. apply H7.
      * destruct Hrest as (H1 & H2 & H3 & H4). simpl in *.
        repeat split; auto.
        -- rewrite H1. reflexivity.
        -- rewrite H3, Hu. lia.
        -- rewrite H4, Hy. reflexivity.
Qed.

(** After at least one iteration [done] holds what the last call returned. *)
Lemma for_loop_done ahead : forall l,
  stopped l = false -> ahead <> [] ->
  exists cs k,
    calls (for_loop ahead l) = cs ++ [k] /\
    done (for_loop ahead l) = Some (call_ret k).
Proof.
  induction ahead as [|c ahead IH]; intros l Hl Hne; [congruence|].
  rewrite for_loop_cons.
  pose proof (loop_body_done c l) as Hd.
  pose proof (loop_body_calls c l) as Hc.
  destruct (stopped (fst (loop_body c l))) eqn:E.
  - eexists _, _. split; [exact Hc|]. exact Hd.
  - destruct ahead as [|c' ahead].
    + rewrite for_loop_nil. eexists _, _. split; [exact Hc|]. exact Hd.
    + apply IH; [|discriminate]. rewrite stopped_next_uidx. exact E.
Qed.

End LoopFacts.


(** ** The decode cycle, for every parser *)

Section BlockFacts.

Context {P : Type} {ops : SBGC_ParserOps P}.

Lemma mdlOutputs_valid (S : SimStruct) :
  input_valid (InputPortSignal1 S) ->
  mdlOutputs S =
  (set_outputs S (y0 (for_loop (InputPortSignal0 S) loop_entry))
     (option_map real_of_uint8 (done (for_loop (InputPortSignal0 S) loop_entry))),
   calls (for_loop (InputPortSignal0 S) loop_entry)).
Proof. intros Hv. unfold mdlOutputs. rewrite Hv. reflexivity. Qed.

Lemma mdlOutputs_no_data (S : SimStruct) :
  (InputPortSignal1 S <? 0.5)%float = true ->
  mdlOutputs S = (set_outputs S (-1) (Some (-1)), []).
Proof. intros Hv. unfold mdlOutputs. rewrite Hv. reflexivity. Qed.

Lemma stopped_loop_entry : stopped loop_entry = false.
Proof. reflexivity. Qed.

Lemma not_frame_call_zero (k : call) :
  ~ frame_call k -> real_of_uint8 (call_ret k) = 0.
Proof.
  unfold frame_call, real_of_uint8. intros Hk.
  pose proof (byte.unsigned_range (call_ret k)). lia.
Qed.

(** When no call of [process_char] reports a frame, a non-empty buffer gives
    Output A = 0 (the preset) and Output B = 0. *)
Lemma no_frame_outputs (S : SimStruct) :
  input_valid (InputPortSignal1 S) ->
  InputPortSignal0 S <> [] ->
  Forall (fun k => ~ frame_call k) (snd (mdlOutputs S)) ->
  outputs (fst (mdlOutputs S)) = (0, Some 0).
Proof.
  intros Hv Hne Hq. rewrite (mdlOutputs_valid S Hv) in *. cbn [fst snd] in *.
  destruct (for_loop_history (InputPortSignal0 S) loop_entry stopped_loop_entry)
    as [new [Hc Hh]].
  destruct (for_loop_done (InputPortSignal0 S) loop_entry stopped_loop_entry Hne)
    as (cs & k & Hck & Hd).
  unfold outputs. cbn [set_outputs OutputPortSignal0 OutputPortSignal1].
  rewrite Hd. cbn [option_map].
  rewrite Hck in Hq. apply Forall_app in Hq. destruct Hq as [_ Hk].
  inversion Hk as [|? ? Hk0 _]; subst.
  rewrite (not_frame_call_zero k Hk0).
  destruct (stopped (for_loop (InputPortSignal0 S) loop_entry)) eqn:E.
  - exfalso. unfold stopped in E. rewrite Hd in E. apply Z.ltb_lt in E.
    apply Hk0. exact E.
  - destruct Hh as (_ & _ & _ & Hy). rewrite Hy. reflexivity.
Qed.

(** C3: with the input-valid flag below 0.5 the parser is never called and
    both outputs are the sentinel -1; hence any two blocks decoded with such
    a flag, whatever their buffers hold, show identical outputs. *)
Theorem no_data_gives_sentinel (S S' : SimStruct) :
  (InputPortSignal1 S <? 0.5)%float = true ->
  (InputPortSignal1 S' <? 0.5)%float = true ->
  snd (mdlOutputs S) = [] /\
  outputs (fst (mdlOutputs S)) = (-1, Some (-1)) /\
  outputs (fst (mdlOutputs S)) = outputs (fst (mdlOutputs S')).
Proof.
  intros H H'. rewrite (mdlOutputs_no_data S H), (mdlOutputs_no_data S' H').
  repeat split.
Qed.

(** C7: decoding is memoryless.  Decode buffer X, then load buffer Y into
    the same block and decode again: outputs and parser calls for Y are those
    of decoding Y in any other block, whatever that block went through. *)
Theorem decode_is_memoryless (S S0 : SimStruct) (X Y : list byte) (sx sy : float) :
  let after_X := fst (mdlOutputs (set_inputs S X sx)) in
  outputs (fst (mdlOutputs (set_inputs after_X Y sy))) =
    outputs (fst (mdlOutputs (set_inputs S0 Y sy))) /\
  snd (mdlOutputs (set_inputs after_X Y sy)) =
    snd (mdlOutputs (set_inputs S0 Y sy)).
Proof.
  intros after_X. unfold mdlOutputs.
  cbn [set_inputs InputPortSignal0 InputPortSignal1].
  destruct (sy <? 0.5)%float; split; reflexivity.
Qed.

(** *** The loop against the parser as it is driven *)

(** One iteration: the call is made on the parser object the locals hold,
    [done] and the history take what it returns, the object and
    [numErr_start] move on as [after_byte] says, and [y0] takes [in_cmd.id]
    of that object exactly when the value returned is positive. *)
Lemma loop_body_driven (c : byte) (l : locals P) :
  driven (fst (loop_body c l)) = after_byte (driven l) c /\
  done (fst (loop_body c l)) = Some (snd (process_char (sbgc_parser l) c)) /\
  calls (fst (loop_body c l)) =
    calls l ++ [mkCall c (snd (process_char (sbgc_parser l) c))] /\
  uidx (fst (loop_body c l)) = uidx l /\
  y0 (fst (loop_body c l)) =
    (if 0 <? byte.unsigned (snd (process_char (sbgc_parser l) c))
     then real_of_uint8 (in_cmd_id (fst (after_byte (driven l) c)))
     else y0 l) /\
  stopped (fst (loop_body c l)) =
    (0 <? byte.unsigned (snd (process_char (sbgc_parser l) c))).
Proof.
  unfold loop_body, driven, after_byte, stopped. cbn [fst snd].
  destruct (process_char (sbgc_parser l) c) as [p1 d]. cbn [fst snd].
  destruct (numErr_start l <? get_parse_error_count p1);
    destruct (0 <? byte.unsigned d) eqn:E;
    cbn [fst snd sbgc_parser numErr_start done calls uidx y0];
    rewrite ?E; repeat split.
Qed.

Lemma calls_from_app (a b : list byte) : forall st : P * Z,
  calls_from st (a ++ b) =
  calls_from st a ++ calls_from (fold_left after_byte a st) b.
Proof.
  induction a as [|c a IH]; intros st; [reflexivity|].
  cbn [app calls_from fold_left]. rewrite IH. reflexivity.
Qed.

Lemma calls_from_args (bs : list byte) : forall st : P * Z,
  map call_arg (calls_from st bs) = bs.
Proof.
  induction bs as [|c bs IH]; intros st; [reflexivity|].
  cbn [calls_from map call_arg]. rewrite IH. reflexivity.
Qed.

Lemma not_frame_call_ltb (c d : byte) :
  ~ frame_call (mkCall c d) -> (0 <? byte.unsigned d) = false.
Proof.
  unfold frame_call. cbn [call_ret]. intros H. apply Z.ltb_ge. lia.
Qed.

(** While no call returns a positive value the loop goes on: the parser
    object, the history, [y0] and the index after the bytes [ahead]. *)
Lemma for_loop_busy (ahead : list byte) : forall l : locals P,
  Forall (fun k => ~ frame_call k) (calls_from (driven l) ahead) ->
  driven (for_loop ahead l) = fold_left after_byte ahead (driven l) /\
  calls (for_loop ahead l) = calls l ++ calls_from (driven l) ahead /\
  y0 (for_loop ahead l) = y0 l /\
  uidx (for_loop ahead l) = (uidx l + length ahead)%nat /\
  (stopped l = false -> stopped (for_loop ahead l) = false).
Proof.
  induction ahead as [|c ahead IH]; intros l Hq.
  - rewrite for_loop_nil, app_nil_r. cbn [length fold_left].
    repeat split; auto.
  - cbn [calls_from] in Hq. inversion Hq as [|k ks Hk Hks]; subst.
    apply not_frame_call_ltb in Hk.
    destruct (loop_body_driven c l) as (Hdr & Hd & Hc & Hu & Hy & Hst).
    rewrite Hk in Hy, Hst.
    rewrite for_loop_cons, Hst.
    destruct (IH (next_uidx (fst (loop_body c l)))) as (I1 & I2 & I3 & I4 & I5).
    { change (driven (next_uidx (fst (loop_body c l))))
        with (driven (fst (loop_body c l))).
      rewrite Hdr. exact Hks. }
    change (driven (next_uidx (fst (loop_body c l))))
      with (driven (fst (loop_body c l))) in I1, I2.
    cbn [next_uidx calls y0 uidx] in I2, I3, I4.
    rewrite Hdr in I1, I2.
    split; [exact I1|]. split; [|split; [|split]].
    + rewrite I2, Hc, <- app_assoc. reflexivity.
    + rewrite I3. exact Hy.
    + rewrite I4, Hu. cbn [length]. lia.
    + intros _. apply I5. rewrite stopped_next_uidx. exact Hst.
Qed.

(** The last byte the loop feeds: the byte [c] behind a run [pre] during
    which no call returned a positive value, when [c] is the last byte of
    the buffer or the call on [c] returns a positive value. *)
Lemma for_loop_last_byte (pre rest : list byte) (c : byte) (l : locals P) :
  stopped l = false ->
  Forall (fun k => ~ frame_call k) (calls_from (driven l) pre) ->
  rest = [] \/
    0 < byte.unsigned
          (snd (process_char (fst (fold_left after_byte pre (driven l))) c)) ->
  driven (for_loop (pre ++ c :: rest) l) =
    fold_left after_byte (pre ++ [c]) (driven l) /\
  calls (for_loop (pre ++ c :: rest) l) =
    calls l ++ calls_from (driven l) (pre ++ [c]) /\
  done (for_loop (pre ++ c :: rest) l) =
    Some (snd (process_char (fst (fold_left after_byte pre (driven l))) c)) /\
  (0 < byte.unsigned
         (snd (process_char (fst (fold_left after_byte pre (driven l))) c)) ->
   y0 (for_loop (pre ++ c :: rest) l) =
     real_of_uint8
       (in_cmd_id (fst (fold_left after_byte (pre ++ [c]) (driven l)))) /\
   uidx (for_loop (pre ++ c :: rest) l) = (uidx l + length pre)%nat).
Proof.
  intros Hl Hq Hlast.
  destruct (for_loop_busy pre l Hq) as (B1 & B2 & B3 & B4 & B5).
  rewrite (for_loop_app pre (c :: rest) l Hl), (B5 Hl), for_loop_cons.
  destruct (loop_body_driven c (for_loop pre l))
    as (Hdr & Hd & Hc & Hu & Hy & Hst).
  assert (Hp : sbgc_parser (for_loop pre l) =
               fst (fold_left after_byte pre (driven l))).
  { rewrite <- B1. reflexivity. }
  rewrite Hp in Hd, Hc, Hy, Hst. rewrite B1 in Hdr, Hy.
  rewrite fold_left_app, calls_from_app. cbn [fold_left calls_from].
  rewrite Hst.
  destruct (0 <? byte.unsigned
              (snd (process_char (fst (fold_left after_byte pre (driven l))) c)))
    eqn:E.
  - split; [exact Hdr|]. split; [|split; [exact Hd|]].
    + rewrite Hc, B2, <- app_assoc. reflexivity.
    + intros _. split; [exact Hy|]. rewrite Hu, B4. reflexivity.
  - destruct Hlast as [-> | Hpos]; [|apply Z.ltb_ge in E; lia].
    rewrite for_loop_nil.
    change (driven (next_uidx (fst (loop_body c (for_loop pre l)))))
      with (driven (fst (loop_body c (for_loop pre l)))).
    cbn [next_uidx calls done].
    split; [exact Hdr|]. split; [|split; [exact Hd|]].
    + rewrite Hc, B2, <- app_assoc. reflexivity.
    + intros Hpos. apply Z.ltb_ge in E. lia.
Qed.

(** Every non-empty buffer has its last fed byte: the first byte on which
    [process_char] returns a positive value, or else its last byte. *)
Lemma last_fed_byte (bs : list byte) : forall st : P * Z,
  bs <> [] ->
  exists pre c rest,
    bs = pre ++ c :: rest /\
    Forall (fun k => ~ frame_call k) (calls_from st pre) /\
    (rest = [] \/
     0 < byte.unsigned
           (snd (process_char (fst (fold_left after_byte pre st)) c))).
Proof.
  induction bs as [|c bs IH]; intros st Hne; [congruence|].
  destruct (0 <? byte.unsigned (snd (process_char (fst st) c))) eqn:E.
  - exists [], c, bs. apply Z.ltb_lt in E. cbn [app calls_from fold_left].
    repeat split; auto.
  - destruct bs as [|c' bs].
    + exists [], c, []. cbn [app calls_from]. repeat split; auto.
    + destruct (IH (after_byte st c)) as (pre & x & rest & H1 & H2 & H3);
        [discriminate|].
      exists (c :: pre), x, rest. cbn [app calls_from fold_left].
      split; [rewrite H1; reflexivity|]. split; [|exact H3].
      constructor; [|exact H2].
      unfold frame_call. cbn [call_ret]. apply Z.ltb_ge in E. lia.
Qed.

Lemma driven_loop_entry : driven loop_entry = driver_start.
Proof. reflexivity. Qed.

(** C4: when the call of [process_char] on a byte of the buffer returns a
    positive value, no call before it having done so, that call is the last
    one made: the calls are those on the buffer up to and including that
    byte, the loop index stops at it, Output A is [in_cmd.id] of the parser
    object left by that call (and by the [reset] that may follow it),
    Output B is the value the call returned, and the bytes behind it have no
    influence on outputs or calls. *)
Theorem first_frame_stops_decoding (S : SimStruct) (pre rest : list byte) (c : byte) :
  input_valid (InputPortSignal1 S) ->
  InputPortSignal0 S = pre ++ c :: rest ->
  Forall (fun k => ~ frame_call k) (calls_from driver_start pre) ->
  0 < byte.unsigned (returned_after pre c) ->
  snd (mdlOutputs S) = calls_from driver_start (pre ++ [c]) /\
  uidx (for_loop (InputPortSignal0 S) loop_entry) = length pre /\
  OutputPortSignal0 (fst (mdlOutputs S)) =
    real_of_uint8 (in_cmd_id (fst (after_bytes (pre ++ [c])))) /\
  OutputPortSignal1 (fst (mdlOutputs S)) =
    Some (real_of_uint8 (returned_after pre c)) /\
  forall rest',
    let S' := set_inputs S (pre ++ c :: rest') (InputPortSignal1 S) in
    outputs (fst (mdlOutputs S')) = outputs (fst (mdlOutputs S)) /\
    snd (mdlOutputs S') = snd (mdlOutputs S).
Proof.
  intros Hv Hu Hq Hpos. unfold returned_after, after_bytes in *.
  assert (Hrun : forall tail,
            let r := for_loop (pre ++ c :: tail) loop_entry in
            calls r = calls_from driver_start (pre ++ [c]) /\
            uidx r = length pre /\
            y0 r = real_of_uint8
                     (in_cmd_id (fst (fold_left after_byte (pre ++ [c])
                                        driver_start))) /\
            done r = Some (snd (process_char
                                  (fst (fold_left after_byte pre driver_start))
                                  c))).
  { intros tail.
    destruct (for_loop_last_byte pre tail c loop_entry stopped_loop_entry Hq
                (or_intror Hpos)) as (_ & R2 & R3 & R4).
    destruct (R4 Hpos) as [R5 R6].
    rewrite driven_loop_entry in *. cbn [loop_entry calls app uidx] in *.
    repeat split; auto. }
  rewrite (mdlOutputs_valid S Hv), Hu. cbn [fst snd].
  destruct (Hrun rest) as (R1 & R2 & R3 & R4).
  cbn [set_outputs OutputPortSignal0 OutputPortSignal1].
  rewrite R1, R2, R3, R4. cbn [option_map].
  repeat split; auto.
  - rewrite mdlOutputs_valid by exact Hv.
    cbn [set_inputs InputPortSignal0 fst]. unfold outputs.
    cbn [set_outputs OutputPortSignal0 OutputPortSignal1].
    destruct (Hrun rest') as (_ & _ & T3 & T4). rewrite T3, T4. reflexivity.
  - rewrite mdlOutputs_valid by exact Hv.
    cbn [set_inputs InputPortSignal0 snd].
    destruct (Hrun rest') as (T1 & _). exact T1.
Qed.

(** C8: on a cycle with a valid flag the loop runs over the whole input
    port, whose width is SBGC_CMD_MAX_BYTES.  Either no call of
    [process_char] returns a positive value: then the calls made are the
    calls on all SBGC_CMD_MAX_BYTES bytes of the port in order, each on the
    parser object the bytes before it have left, and the parser object ends
    as all these bytes leave it.  Or the call on some byte is the first to
    return a positive value: then the calls made are those on the bytes up
    to that one.  Nothing but the port width and a completed frame bounds
    the bytes that take part. *)
Theorem whole_port_is_fed (SBGC_CMD_MAX_BYTES : nat) (S : SimStruct) :
  port_sized SBGC_CMD_MAX_BYTES S ->
  input_valid (InputPortSignal1 S) ->
  (Forall (fun k => ~ frame_call k)
          (calls_from driver_start (InputPortSignal0 S)) /\
   snd (mdlOutputs S) = calls_from driver_start (InputPortSignal0 S) /\
   map call_arg (snd (mdlOutputs S)) = InputPortSignal0 S /\
   length (snd (mdlOutputs S)) = SBGC_CMD_MAX_BYTES /\
   driven (for_loop (InputPortSignal0 S) loop_entry) =
     after_bytes (InputPortSignal0 S))
  \/
  (exists pre c rest,
     InputPortSignal0 S = pre ++ c :: rest /\
     Forall (fun k => ~ frame_call k) (calls_from driver_start pre) /\
     0 < byte.unsigned (returned_after pre c) /\
     snd (mdlOutputs S) = calls_from driver_start (pre ++ [c]) /\
     map call_arg (snd (mdlOutputs S)) = pre ++ [c] /\
     driven (for_loop (InputPortSignal0 S) loop_entry) =
       after_bytes (pre ++ [c])).
Proof.
  intros Hw Hv. rewrite (mdlOutputs_valid S Hv). cbn [fst snd].
  unfold returned_after, after_bytes.
  destruct (InputPortSignal0 S) as [|b bs] eqn:Hu.
  - left. rewrite for_loop_nil. unfold port_sized in Hw. rewrite Hu in Hw.
    cbn [calls_from loop_entry calls map length fold_left] in *.
    repeat split; auto.
  - destruct (last_fed_byte (b :: bs) driver_start) as
      (pre & c & rest & H1 & H2 & H3); [discriminate|].
    rewrite H1.
    destruct (for_loop_last_byte pre rest c loop_entry stopped_loop_entry H2 H3)
      as (R1 & R2 & _).
    rewrite driven_loop_entry in R1, R2. cbn [loop_entry calls app] in R2.
    destruct (Z_lt_dec 0 (byte.unsigned
                (snd (process_char (fst (fold_left after_byte pre driver_start))
                        c)))) as [Hpos|Hneg].
    + right. exists pre, c, rest. rewrite R2, calls_from_args.
      repeat split; auto.
    + left. destruct H3 as [-> | Hpos]; [|contradiction].
      rewrite R2, calls_from_args. split; [|repeat split; auto].
      * rewrite calls_from_app. apply Forall_app. split; [exact H2|].
        cbn [calls_from]. constructor; [|constructor]. exact Hneg.
      * rewrite <- (length_map call_arg), calls_from_args, <- H1.
        unfold port_sized in Hw. rewrite ?Hu in Hw. exact Hw.
Qed.

(** C10: under a valid flag, when the input port is at least one byte wide
    the loop makes a last call of [process_char] -- on the last byte of the
    port, or on the first byte on which the call returns a positive value --
    and Output B is the value that call returned; on a port of width zero
    the loop body never runs, no call is made and Output B is read from the
    never-assigned local [done]. *)
Theorem output_B_is_last_return (S : SimStruct) :
  input_valid (InputPortSignal1 S) ->
  ((0 < length (InputPortSignal0 S))%nat ->
   exists pre c rest,
     InputPortSignal0 S = pre ++ c :: rest /\
     Forall (fun k => ~ frame_call k) (calls_from driver_start pre) /\
     (rest = [] \/ 0 < byte.unsigned (returned_after pre c)) /\
     snd (mdlOutputs S) =
       calls_from driver_start pre ++ [mkCall c (returned_after pre c)] /\
     OutputPortSignal1 (fst (mdlOutputs S)) =
       Some (real_of_uint8 (returned_after pre c)))
  /\
  (length (InputPortSignal0 S) = 0%nat ->
   snd (mdlOutputs S) = [] /\ OutputPortSignal1 (fst (mdlOutputs S)) = None).
Proof.
  intros Hv. rewrite (mdlOutputs_valid S Hv). cbn [fst snd]. split.
  - intros Hlen.
    assert (Hne : InputPortSignal0 S <> []).
    { destruct (InputPortSignal0 S); [simpl in Hlen; lia | discriminate]. }
    destruct (last_fed_byte (InputPortSignal0 S) driver_start Hne)
      as (pre & c & rest & H1 & H2 & H3).
    exists pre, c, rest. unfold returned_after, after_bytes.
    split; [exact H1|]. split; [exact H2|]. split; [exact H3|].
    rewrite H1.
    destruct (for_loop_last_byte pre rest c loop_entry stopped_loop_entry H2 H3)
      as (_ & R2 & R3 & _).
    rewrite driven_loop_entry in R2, R3. cbn [loop_entry calls app] in R2.
    cbn [set_outputs OutputPortSignal1]. rewrite R2, R3, calls_from_app.
    split; reflexivity.
  - intros Hlen. apply length_zero_iff_nil in Hlen. rewrite Hlen.
    split; reflexivity.
Qed.

End BlockFacts.

(** ** The frame SBGC.decoder, one byte at a time *)

Section DecoderFacts.

#[local] Arguments Byte.eqb : simpl never.
#[local] Arguments byte.unsigned : simpl never.
#[local] Arguments SBGC.checksum : simpl never.
#[local] Arguments for_loop : simpl never.

(** One [feed] on a decoder whose phase is known. *)
Ltac feed_step :=
  unfold SBGC.feed at 1;
  cbn [SBGC.cur_phase SBGC.id_buf SBGC.len_buf SBGC.payload_buf
       SBGC.error_count].

Lemma eqb_refl (b : byte) : Byte.eqb b b = true.
Proof. apply Byte.byte_dec_lb. reflexivity. Qed.

Lemma eqb_neq (a b : byte) : a <> b -> Byte.eqb a b = false.
Proof.
  intros Hne. destruct (Byte.eqb a b) eqn:E; [|reflexivity].
  apply Byte.byte_dec_bl in E. contradiction.
Qed.

Lemma reset_seek (d : SBGC.decoder) :
  SBGC.cur_phase d = SBGC.SEEK_HEADER -> SBGC.reset d = d.
Proof. destruct d; simpl; intros ->; reflexivity. Qed.

(** A discarded frame sends the SBGC.decoder back to SBGC.header search and counts one
    error; nothing else touches the error count. *)
Lemma feed_error_count (d : SBGC.decoder) (c : byte) :
  (snd (SBGC.feed d c) = SBGC.FRAME_DISCARDED /\
   SBGC.cur_phase (fst (SBGC.feed d c)) = SBGC.SEEK_HEADER /\
   SBGC.error_count (fst (SBGC.feed d c)) = uint16_T (SBGC.error_count d + 1))
  \/
  (snd (SBGC.feed d c) <> SBGC.FRAME_DISCARDED /\
   SBGC.error_count (fst (SBGC.feed d c)) = SBGC.error_count d).
Proof.
  unfold SBGC.feed, SBGC.discard. destruct (SBGC.cur_phase d).
  - destruct (Byte.eqb c SBGC.header); right; split; (discriminate || reflexivity).
  - right; split; (discriminate || reflexivity).
  - right; split; (discriminate || reflexivity).
  - destruct (Byte.eqb c (SBGC.checksum [SBGC.id_buf d; SBGC.len_buf d]));
      [right; split; (discriminate || reflexivity) | left; repeat split].
  - right; split; (discriminate || reflexivity).
  - destruct (Byte.eqb c (SBGC.checksum (SBGC.payload_buf d)));
      [right; split; (discriminate || reflexivity) | left; repeat split].
  - right; split; (discriminate || reflexivity).
Qed.

(** One iteration of the loop around the SBGC.decoder: the parser object becomes
    what [SBGC.feed] gives (the [reset] after an error finds it in SBGC.header search
    already), [done] is 1 exactly on [SBGC.FRAME_READY], and only then is the
    identifier copied to [y0]. *)
Lemma loop_body_feed (c : byte) (l : locals SBGC.decoder) :
  errs_seen l ->
  let d' := fst (SBGC.feed (sbgc_parser l) c) in
  let r := snd (SBGC.feed (sbgc_parser l) c) in
  let l' := fst (loop_body c l) in
  sbgc_parser l' = d' /\ errs_seen l' /\
  done l' = Some (ret_of r) /\
  calls l' = calls l ++ [mkCall c (ret_of r)] /\
  uidx l' = uidx l /\
  y0 l' = match r with
          | SBGC.FRAME_READY => real_of_uint8 (SBGC.id_buf d')
          | _ => y0 l
          end.
Proof.
  intros Hs. unfold errs_seen in *.
  pose proof (feed_error_count (sbgc_parser l) c) as Herr.
  unfold loop_body. cbn [process_char get_parse_error_count reset in_cmd_id
                         SBGC.parser_ops].
  unfold SBGC.process_char.
  destruct (SBGC.feed (sbgc_parser l) c) as [d' r]. cbn [fst snd] in *.
  destruct Herr as [(Hr & Hp & He) | (Hr & He)].
  - subst r. cbn [ret_of]. rewrite (reset_seek d' Hp).
    change (0 <? byte.unsigned Byte.x00) with false.
    destruct (numErr_start l <? SBGC.error_count d') eqn:E; cbn [fst sbgc_parser
      numErr_start done calls uidx y0]; repeat split; auto.
    + rewrite He. unfold uint16_T. rewrite Z.mod_mod by lia. lia.
    + apply Z.ltb_ge in E. exact E.
  - assert (E : (numErr_start l <? SBGC.error_count d') = false).
    { apply Z.ltb_ge. lia. }
    rewrite E.
    destruct r; try congruence; cbn [ret_of];
      [change (0 <? byte.unsigned Byte.x00) with false
      |change (0 <? byte.unsigned Byte.x01) with true];
      cbn [fst sbgc_parser numErr_start done calls uidx y0];
      repeat split; auto; lia.
Qed.

Lemma stopped_ret (l : locals SBGC.decoder) (r : SBGC.feed_result) :
  done l = Some (ret_of r) ->
  stopped l = match r with SBGC.FRAME_READY => true | _ => false end.
Proof. unfold stopped. intros ->. destruct r; reflexivity. Qed.

(** A run of bytes during which no frame completes, seen from the loop. *)
Lemma for_loop_feeds (a : list byte) : forall (l : locals SBGC.decoder) (d1 : SBGC.decoder),
  errs_seen l -> stopped l = false ->
  SBGC.feeds (sbgc_parser l) a = Some d1 ->
  sbgc_parser (for_loop a l) = d1 /\
  errs_seen (for_loop a l) /\
  stopped (for_loop a l) = false /\
  y0 (for_loop a l) = y0 l /\
  calls (for_loop a l) = calls l ++ map quiet_call a /\
  (a <> [] -> done (for_loop a l) = Some Byte.x00).
Proof.
  induction a as [|c a IH]; intros l d1 Hs Hl Hf.
  - rewrite for_loop_nil. simpl in Hf. inversion Hf; subst.
    rewrite app_nil_r. repeat split; auto. congruence.
  - rewrite for_loop_cons.
    destruct (loop_body_feed c l Hs) as (Hp & Hs' & Hd & Hc & Hu & Hy).
    cbn [SBGC.feeds] in Hf.
    destruct (SBGC.feed (sbgc_parser l) c) as [d' r]. cbn [fst snd] in *.
    rewrite (stopped_ret _ r Hd).
    assert (Hr : r <> SBGC.FRAME_READY) by (intros ->; discriminate).
    assert (Hf' : SBGC.feeds d' a = Some d1) by (destruct r; congruence).
    assert (Hret : ret_of r = Byte.x00) by (destruct r; simpl; congruence).
    assert (Hst : match r with SBGC.FRAME_READY => true | _ => false end = false)
      by (destruct r; simpl; congruence).
    rewrite Hst.
    destruct (IH (next_uidx (fst (loop_body c l))) d1) as (I1 & I2 & I3 & I4 & I5 & I6).
    { exact Hs'. }
    { rewrite stopped_next_uidx, (stopped_ret _ r Hd). exact Hst. }
    { cbn [next_uidx sbgc_parser]. rewrite Hp. exact Hf'. }
    repeat split; auto.
    + rewrite I4. cbn [next_uidx y0]. rewrite Hy. destruct r; congruence.
    + rewrite I5. cbn [next_uidx calls]. rewrite Hc, Hret, <- app_assoc.
      reflexivity.
    + intros _. destruct a as [|c' a].
      * rewrite for_loop_nil. cbn [next_uidx done]. rewrite Hd, Hret.
        reflexivity.
      * apply I6. discriminate.
Qed.

(** The byte that completes a frame, seen from the loop: the loop leaves at
    once with the identifier in [y0] and [done = 1]. *)
Lemma for_loop_ready (c : byte) (rest : list byte) (l : locals SBGC.decoder) (d2 : SBGC.decoder) :
  errs_seen l ->
  SBGC.feed (sbgc_parser l) c = (d2, SBGC.FRAME_READY) ->
  y0 (for_loop (c :: rest) l) = real_of_uint8 (SBGC.id_buf d2) /\
  done (for_loop (c :: rest) l) = Some Byte.x01 /\
  calls (for_loop (c :: rest) l) = calls l ++ [mkCall c Byte.x01].
Proof.
  intros Hs Hf. rewrite for_loop_cons.
  destruct (loop_body_feed c l Hs) as (Hp & Hs' & Hd & Hc & Hu & Hy).
  rewrite Hf in *. cbn [fst snd ret_of] in *.
  rewrite (stopped_ret _ SBGC.FRAME_READY Hd). auto.
Qed.

Lemma errs_seen_entry : errs_seen loop_entry.
Proof. unfold errs_seen. cbv. discriminate. Qed.

(** The cycle when a frame completes at byte [c] after the quiet run [a]. *)
Lemma mdlOutputs_found (S : SimStruct) (a rest : list byte) (c : byte)
      (d1 d2 : SBGC.decoder) :
  input_valid (InputPortSignal1 S) ->
  InputPortSignal0 S = a ++ c :: rest ->
  SBGC.feeds SBGC.fresh a = Some d1 ->
  SBGC.feed d1 c = (d2, SBGC.FRAME_READY) ->
  mdlOutputs S =
  (set_outputs S (real_of_uint8 (SBGC.id_buf d2)) (Some 1),
   map quiet_call a ++ [mkCall c Byte.x01]).
Proof.
  intros Hv Hu Ha Hc. rewrite (mdlOutputs_valid S Hv), Hu.
  rewrite (for_loop_app a (c :: rest) loop_entry stopped_loop_entry).
  destruct (for_loop_feeds a loop_entry d1 errs_seen_entry stopped_loop_entry Ha)
    as (H1 & H2 & H3 & H4 & H5 & _).
  rewrite H3.
  rewrite <- H1 in Hc.
  destruct (for_loop_ready c rest _ d2 H2 Hc) as (Hy & Hd & Hcs).
  rewrite Hy, Hd, Hcs, H5. reflexivity.
Qed.

(** The cycle when the whole buffer is a quiet run. *)
Lemma mdlOutputs_not_found (S : SimStruct) (d1 : SBGC.decoder) :
  input_valid (InputPortSignal1 S) ->
  InputPortSignal0 S <> [] ->
  SBGC.feeds SBGC.fresh (InputPortSignal0 S) = Some d1 ->
  mdlOutputs S =
  (set_outputs S 0 (Some 0), map quiet_call (InputPortSignal0 S)).
Proof.
  intros Hv Hne Ha. rewrite (mdlOutputs_valid S Hv).
  destruct (for_loop_feeds _ loop_entry d1 errs_seen_entry stopped_loop_entry Ha)
    as (H1 & H2 & H3 & H4 & H5 & H6).
  rewrite H4, H5, (H6 Hne). reflexivity.
Qed.

(** *** Runs of the decoder *)

Lemma feeds_app (a b : list byte) : forall d,
  SBGC.feeds d (a ++ b) =
  match SBGC.feeds d a with
  | Some d' => SBGC.feeds d' b
  | None => None
  end.
Proof.
  induction a as [|c a IH]; intros d; [reflexivity|].
  rewrite <- app_comm_cons. cbn [SBGC.feeds].
  destruct (SBGC.feed d c) as [d' r]. destruct r; auto.
Qed.

(** Either the whole run is quiet, or it splits at the first byte that
    completes a frame. *)
Lemma feeds_dichotomy (bs : list byte) : forall d,
  (exists d', SBGC.feeds d bs = Some d') \/
  (exists a c rest d1 d2,
     bs = a ++ c :: rest /\ SBGC.feeds d a = Some d1 /\
     SBGC.feed d1 c = (d2, SBGC.FRAME_READY)).
Proof.
  induction bs as [|c bs IH]; intros d.
  - left. exists d. reflexivity.
  - destruct (SBGC.feed d c) as [d' r] eqn:E.
    assert (Hq : r <> SBGC.FRAME_READY ->
                 forall xs, SBGC.feeds d (c :: xs) = SBGC.feeds d' xs).
    { intros Hr xs. cbn [SBGC.feeds]. rewrite E. destruct r; congruence. }
    destruct r.
    + destruct (IH d') as [[d1 H1] | (a & c' & rest & d1 & d2 & H1 & H2 & H3)].
      * left. exists d1. rewrite Hq by discriminate. exact H1.
      * right. exists (c :: a), c', rest, d1, d2. subst bs.
        repeat split; auto. rewrite Hq by discriminate. exact H2.
    + right. exists [], c, bs, d, d'. repeat split; auto.
    + destruct (IH d') as [[d1 H1] | (a & c' & rest & d1 & d2 & H1 & H2 & H3)].
      * left. exists d1. rewrite Hq by discriminate. exact H1.
      * right. exists (c :: a), c', rest, d1, d2. subst bs.
        repeat split; auto. rewrite Hq by discriminate. exact H2.
Qed.

(** Header search drops every byte that is not the header byte. *)
Lemma feeds_skip (bs : list byte) (d : SBGC.decoder) :
  SBGC.cur_phase d = SBGC.SEEK_HEADER ->
  ~ In SBGC.header bs ->
  SBGC.feeds d bs = Some d.
Proof.
  intros Hp. induction bs as [|c bs IH]; intros Hn; [reflexivity|].
  cbn [SBGC.feeds]. unfold SBGC.feed. rewrite Hp.
  rewrite eqb_neq.
  - apply IH. intros Hin. apply Hn. right. exact Hin.
  - intros ->. apply Hn. left. reflexivity.
Qed.

(** Payload bytes are appended until the announced length is reached. *)
Lemma feeds_payload (bs : list byte) : forall d,
  SBGC.cur_phase d = SBGC.READ_PAYLOAD ->
  Z.of_nat (length (SBGC.payload_buf d) + length bs) =
    byte.unsigned (SBGC.len_buf d) ->
  bs <> [] ->
  SBGC.feeds d bs =
  Some (SBGC.mkDecoder SBGC.VERIFY_PAYLOAD_CHECKSUM (SBGC.id_buf d)
          (SBGC.len_buf d) (SBGC.payload_buf d ++ bs) (SBGC.error_count d)).
Proof.
  induction bs as [|c bs IH]; intros d Hp Hlen Hne; [congruence|].
  cbn [SBGC.feeds]. unfold SBGC.feed. rewrite Hp. cbv zeta.
  rewrite length_app. cbn [length] in *.
  destruct bs as [|c' bs].
  - replace (Z.of_nat (length (SBGC.payload_buf d) + 1) =?
             byte.unsigned (SBGC.len_buf d)) with true
      by (symmetry; apply Z.eqb_eq; cbn [length] in Hlen; lia).
    reflexivity.
  - replace (Z.of_nat (length (SBGC.payload_buf d) + 1) =?
             byte.unsigned (SBGC.len_buf d)) with false
      by (symmetry; apply Z.eqb_neq; cbn [length] in Hlen; lia).
    rewrite IH; cbn [SBGC.cur_phase SBGC.id_buf SBGC.len_buf SBGC.payload_buf
                     SBGC.error_count]; auto.
    + rewrite <- app_assoc. reflexivity.
    + rewrite length_app. cbn [length] in *. lia.
    + discriminate.
Qed.

(** From header search, the header byte, the two header fields, a right
    header checksum and the announced payload bring the decoder to the
    payload-checksum test with that payload collected. *)
Lemma feeds_frame_head (f : Frame) (d : SBGC.decoder) :
  SBGC.cur_phase d = SBGC.SEEK_HEADER ->
  length_ok f -> header_checksum_ok f ->
  SBGC.feeds d (SBGC.header :: command_id f :: payload_length f
                  :: header_checksum f :: payload f) =
  Some (SBGC.mkDecoder SBGC.VERIFY_PAYLOAD_CHECKSUM (command_id f)
          (payload_length f) (payload f) (SBGC.error_count d)).
Proof.
  intros Hp Hl Hh. unfold length_ok, header_checksum_ok in *.
  cbn [SBGC.feeds]. unfold SBGC.feed at 1. rewrite Hp, eqb_refl.
  feed_step.
  feed_step.
  feed_step.
  rewrite Hh, eqb_refl.
  destruct (byte.unsigned (payload_length f) =? 0) eqn:E.
  - apply Z.eqb_eq in E. rewrite E in Hl.
    destruct (payload f); [reflexivity | cbn [length] in Hl; lia].
  - apply Z.eqb_neq in E.
    rewrite feeds_payload; cbn [SBGC.cur_phase SBGC.id_buf SBGC.len_buf
      SBGC.payload_buf SBGC.error_count length]; auto; try lia.
    intros Hnil. rewrite Hnil in Hl. cbn [length] in Hl. lia.
Qed.

(** The payload checksum byte that matches completes the frame. *)
Lemma feed_frame_tail (id len : byte) (pl : list byte) (e : Z) :
  SBGC.feed (SBGC.mkDecoder SBGC.VERIFY_PAYLOAD_CHECKSUM id len pl e)
            (SBGC.checksum pl) =
  (SBGC.mkDecoder SBGC.DONE id len pl e, SBGC.FRAME_READY).
Proof.
  unfold SBGC.feed. cbn [SBGC.cur_phase SBGC.id_buf SBGC.len_buf
    SBGC.payload_buf SBGC.error_count]. rewrite eqb_refl. reflexivity.
Qed.

(** A wrong header checksum: the frame attempt is dropped after four bytes
    and the decoder is back in header search. *)
Lemma feeds_bad_header (f : Frame) (d : SBGC.decoder) :
  SBGC.cur_phase d = SBGC.SEEK_HEADER ->
  ~ header_checksum_ok f ->
  exists d',
    SBGC.feeds d [SBGC.header; command_id f; payload_length f;
                  header_checksum f] = Some d' /\
    SBGC.cur_phase d' = SBGC.SEEK_HEADER.
Proof.
  intros Hp Hh. unfold header_checksum_ok in Hh.
  cbn [SBGC.feeds]. unfold SBGC.feed at 1. rewrite Hp, eqb_refl.
  feed_step.
  feed_step.
  feed_step.
  rewrite (eqb_neq _ _ Hh). unfold SBGC.discard.
  eexists. split; reflexivity.
Qed.

(** A wrong payload checksum after a right header: the whole frame is
    consumed, dropped, and the decoder is back in header search. *)
Lemma feeds_bad_payload (f : Frame) (d : SBGC.decoder) :
  SBGC.cur_phase d = SBGC.SEEK_HEADER ->
  length_ok f -> header_checksum_ok f -> ~ payload_checksum_ok f ->
  exists d',
    SBGC.feeds d (frame_bytes f) = Some d' /\
    SBGC.cur_phase d' = SBGC.SEEK_HEADER.
Proof.
  intros Hp Hl Hh Hc. unfold payload_checksum_ok in Hc.
  unfold frame_bytes.
  change (SBGC.header :: command_id f :: payload_length f :: header_checksum f
            :: payload f ++ [payload_checksum f])
    with ((SBGC.header :: command_id f :: payload_length f
             :: header_checksum f :: payload f) ++ [payload_checksum f]).
  rewrite feeds_app, (feeds_frame_head f d Hp Hl Hh).
  cbn [SBGC.feeds]. unfold SBGC.feed. cbn [SBGC.cur_phase SBGC.id_buf
    SBGC.len_buf SBGC.payload_buf SBGC.error_count].
  rewrite (eqb_neq _ _ Hc). unfold SBGC.discard.
  eexists. split; reflexivity.
Qed.

(** A well-formed frame met in header search is decoded, whatever follows. *)
Lemma frame_found (f : Frame) (S : SimStruct) (a rest : list byte)
      (d : SBGC.decoder) :
  input_valid (InputPortSignal1 S) ->
  InputPortSignal0 S = a ++ frame_bytes f ++ rest ->
  SBGC.feeds SBGC.fresh a = Some d ->
  SBGC.cur_phase d = SBGC.SEEK_HEADER ->
  well_formed f ->
  mdlOutputs S =
  (set_outputs S (real_of_uint8 (command_id f)) (Some 1),
   map quiet_call
     (a ++ [SBGC.header; command_id f; payload_length f; header_checksum f]
        ++ payload f)
   ++ [mkCall (payload_checksum f) Byte.x01]).
Proof.
  intros Hv Hu Ha Hp (Hl & Hh & Hc).
  set (head := [SBGC.header; command_id f; payload_length f; header_checksum f]
                 ++ payload f).
  assert (Hsplit : InputPortSignal0 S =
                   (a ++ head) ++ payload_checksum f :: rest).
  { rewrite Hu. unfold frame_bytes, head. cbn [app].
    rewrite <- !app_assoc. reflexivity. }
  rewrite (mdlOutputs_found S (a ++ head) rest (payload_checksum f)
             (SBGC.mkDecoder SBGC.VERIFY_PAYLOAD_CHECKSUM (command_id f)
                (payload_length f) (payload f) (SBGC.error_count d))
             (SBGC.mkDecoder SBGC.DONE (command_id f)
                (payload_length f) (payload f) (SBGC.error_count d))
             Hv Hsplit).
  - reflexivity.
  - rewrite feeds_app, Ha. apply (feeds_frame_head f d Hp Hl Hh).
  - unfold payload_checksum_ok in Hc. rewrite Hc. apply feed_frame_tail.
Qed.

(** *** Frames behind every completion *)

Lemma feed_tracks (consumed : list byte) (d : SBGC.decoder) (c : byte) :
  tracks consumed d ->
  match SBGC.feed d c with
  | (d', SBGC.FRAME_READY) =>
      exists pre f,
        consumed ++ [c] = pre ++ frame_bytes f /\ well_formed f /\
        SBGC.id_buf d' = command_id f
  | (d', _) => tracks (consumed ++ [c]) d'
  end.
Proof.
  unfold tracks, SBGC.feed, SBGC.discard. intros Ht.
  destruct (SBGC.cur_phase d) eqn:Hp.
  - destruct (Byte.eqb c SBGC.header) eqn:E.
    + apply Byte.byte_dec_bl in E. subst c.
      cbn [SBGC.cur_phase SBGC.payload_buf]. exists consumed. auto.
    + rewrite Hp. exact I.
  - destruct Ht as (pre & -> & Hpl).
    cbn [SBGC.cur_phase SBGC.id_buf SBGC.len_buf SBGC.payload_buf].
    exists pre. rewrite <- app_assoc. auto.
  - destruct Ht as (pre & -> & Hpl).
    cbn [SBGC.cur_phase SBGC.id_buf SBGC.len_buf SBGC.payload_buf].
    exists pre. rewrite <- app_assoc. auto.
  - destruct Ht as (pre & -> & Hpl).
    destruct (Byte.eqb c (SBGC.checksum [SBGC.id_buf d; SBGC.len_buf d])) eqn:E.
    + apply Byte.byte_dec_bl in E. subst c.
      pose proof (byte.unsigned_range (SBGC.len_buf d)) as Hr.
      destruct (byte.unsigned (SBGC.len_buf d) =? 0) eqn:E0;
        cbn [SBGC.cur_phase SBGC.id_buf SBGC.len_buf SBGC.payload_buf];
        exists pre; rewrite Hpl, <- app_assoc; cbn [length app];
        (split; [reflexivity|]).
      * apply Z.eqb_eq in E0. lia.
      * apply Z.eqb_neq in E0. lia.
    + cbn [SBGC.cur_phase]. exact I.
  - destruct Ht as (pre & -> & Hlen).
    cbn [SBGC.cur_phase SBGC.id_buf SBGC.len_buf SBGC.payload_buf].
    destruct (Z.of_nat (length (SBGC.payload_buf d ++ [c])) =?
              byte.unsigned (SBGC.len_buf d)) eqn:E;
      exists pre; rewrite <- !app_assoc; (split; [reflexivity|]).
    * apply Z.eqb_eq in E. exact E.
    * apply Z.eqb_neq in E. rewrite length_app in *. cbn [length] in *. lia.
  - destruct Ht as (pre & -> & Hlen).
    destruct (Byte.eqb c (SBGC.checksum (SBGC.payload_buf d))) eqn:E.
    + apply Byte.byte_dec_bl in E. subst c.
      exists pre,
        (mkFrame (SBGC.id_buf d) (SBGC.len_buf d)
           (SBGC.checksum [SBGC.id_buf d; SBGC.len_buf d])
           (SBGC.payload_buf d) (SBGC.checksum (SBGC.payload_buf d))).
      split; [|split; [|reflexivity]].
      * unfold frame_bytes. cbn [command_id payload_length header_checksum
          payload payload_checksum]. rewrite <- !app_assoc. reflexivity.
      * unfold well_formed, length_ok, header_checksum_ok, payload_checksum_ok.
        cbn [command_id payload_length header_checksum payload
             payload_checksum]. auto.
    + cbn [SBGC.cur_phase]. exact I.
  - rewrite Hp. exact I.
Qed.

Lemma feeds_tracks (a : list byte) : forall consumed d d1,
  tracks consumed d -> SBGC.feeds d a = Some d1 -> tracks (consumed ++ a) d1.
Proof.
  induction a as [|c a IH]; intros consumed d d1 Ht Hf.
  - cbn [SBGC.feeds] in Hf. inversion Hf; subst. rewrite app_nil_r. exact Ht.
  - cbn [SBGC.feeds] in Hf. pose proof (feed_tracks consumed d c Ht) as Hs.
    destruct (SBGC.feed d c) as [d' r].
    replace (consumed ++ c :: a) with ((consumed ++ [c]) ++ a)
      by (rewrite <- app_assoc; reflexivity).
    destruct r; try discriminate; eapply IH; eauto.
Qed.

End DecoderFacts.

(** ** The decode cycle around the frame decoder *)

Section DecodeCycle.

#[local] Arguments Byte.eqb : simpl never.
#[local] Arguments byte.unsigned : simpl never.
#[local] Arguments SBGC.checksum : simpl never.
#[local] Arguments for_loop : simpl never.

Lemma SFcompare_antisym (a b : spec_float) :
  SFcompare b a = option_map CompOpp (SFcompare a b).
Proof.
  destruct a as [sa|sa| |sa ma ea], b as [sb|sb| |sb mb eb]; simpl;
    try reflexivity;
    try (destruct sa; reflexivity); try (destruct sb; reflexivity);
    try (destruct sa, sb; reflexivity).
  destruct sa, sb; try reflexivity; f_equal;
    rewrite (Z.compare_antisym ea eb); destruct (ea ?= eb); simpl;
    try reflexivity;
    rewrite (Pos.compare_cont_antisym ma mb Eq); reflexivity.
Qed.

(** A flag that compares [>= 0.5] does not compare [< 0.5]. *)
Lemma flag_ge_half_valid (status : float) :
  (0.5 <=? status)%float = true -> input_valid status.
Proof.
  unfold input_valid. rewrite leb_spec, ltb_spec. unfold SFleb, SFltb.
  rewrite (SFcompare_antisym (Prim2SF 0.5) (Prim2SF status)).
  destruct (SFcompare (Prim2SF 0.5) (Prim2SF status)) as [[]|]; simpl;
    congruence.
Qed.

Lemma unsigned_of_nat_small (n : nat) :
  (n <= 255)%nat -> byte.unsigned (byte.of_Z (Z.of_nat n)) = Z.of_nat n.
Proof.
  intros Hn. rewrite byte.unsigned_of_Z. unfold byte.wrap.
  apply Z.mod_small. lia.
Qed.

(** Every payload of at most 255 bytes has its well-formed frame. *)
Lemma encode_well_formed (id : byte) (pl : list byte) :
  (length pl <= 255)%nat -> well_formed (encode id pl).
Proof.
  intros Hn. unfold well_formed, length_ok, header_checksum_ok,
    payload_checksum_ok, encode.
  cbn [command_id payload_length header_checksum payload payload_checksum].
  rewrite (unsigned_of_nat_small _ Hn). auto.
Qed.

Lemma decode_unfold (uvec : list byte) (status : float) :
  decode uvec status =
  outputs (fst (mdlOutputs (ops := SBGC.parser_ops)
                           (mkSimStruct uvec status 0 None))).
Proof. reflexivity. Qed.

(** C1: a buffer that starts with a well-formed frame -- header 0x3E, any
    command id, a payload of any length the length byte can announce, both
    checksums right -- and goes on with any padding decodes, under a valid
    flag, to Output A = the frame's command id and Output B = 1. *)
Theorem well_formed_frame_decodes (f : Frame) (padding : list byte) (status : float) :
  input_valid status ->
  well_formed f ->
  decode (frame_bytes f ++ padding) status =
  (real_of_uint8 (command_id f), Some 1).
Proof.
  intros Hv Hw. rewrite decode_unfold.
  rewrite (frame_found f (mkSimStruct (frame_bytes f ++ padding) status 0 None)
             [] padding SBGC.fresh); auto.
Qed.

(** C5: under a valid flag the buffer [0x3E, 0x01, 0x00, 0x01, 0x00] decodes
    to Output A = 1 and Output B = 1; its header checksum 0x01 is the sum
    0x01 + 0x00 modulo 256 and its payload checksum 0x00 the empty sum. *)
Theorem concrete_frame_decodes (status : float) :
  input_valid status ->
  decode [Byte.x3e; Byte.x01; Byte.x00; Byte.x01; Byte.x00] status = (1, Some 1)
  /\ SBGC.checksum [Byte.x01; Byte.x00] = Byte.x01
  /\ SBGC.checksum [] = Byte.x00.
Proof.
  intros Hv. split; [|split; reflexivity].
  unfold decode, mdlOutputs. cbn [InputPortSignal1 InputPortSignal0].
  rewrite Hv. reflexivity.
Qed.

(** C2 (as stated) fails: a frame with a wrong header checksum whose payload
    holds the header byte, followed by a well-formed frame, decodes to
    "not done". *)
Lemma resync_claim_fails :
  ~ (forall (f1 f2 : Frame) (status : float),
       input_valid status -> corrupted f1 -> well_formed f2 ->
       decode (frame_bytes f1 ++ frame_bytes f2) status =
       (real_of_uint8 (command_id f2), Some 1)).
Proof.
  intros H.
  specialize (H (mkFrame Byte.x01 Byte.x01 Byte.xff [Byte.x3e] Byte.x3e)
                (mkFrame Byte.x02 Byte.x00 Byte.x02 [] Byte.x00)
                1%float).
  assert (Hd : decode
                 (frame_bytes (mkFrame Byte.x01 Byte.x01 Byte.xff [Byte.x3e] Byte.x3e)
                  ++ frame_bytes (mkFrame Byte.x02 Byte.x00 Byte.x02 [] Byte.x00))
                 1%float = (0, Some 0)) by (vm_compute; reflexivity).
  rewrite Hd in H.
  assert (Heq : (0, Some 0) = (2, Some 1) -> False) by discriminate.
  apply Heq. apply H.
  - reflexivity.
  - split; [reflexivity|]. left. unfold header_checksum_ok. vm_compute.
    discriminate.
  - repeat split.
Qed.

(** C2 (amended): a corrupted frame followed at once by a well-formed frame
    (and any padding) decodes, under a valid flag, to Output B = 1 and
    Output A = the second frame's command id, provided the corrupted frame's
    header checksum is right (so its payload checksum is the wrong one), or
    none of the bytes after its header checksum -- payload and payload
    checksum -- is the header byte 0x3E.  Every [process_char] call before
    the one that completes the second frame returns 0: the failure is not
    surfaced, and every discarded frame attempt leaves the decoder in header
    search for the very next byte. *)
Theorem resync_after_corrupted_frame (f1 f2 : Frame) (padding : list byte) (status : float) :
  input_valid status ->
  corrupted f1 ->
  well_formed f2 ->
  header_checksum_ok f1 \/
    ~ In SBGC.header (payload f1 ++ [payload_checksum f1]) ->
  decode (frame_bytes f1 ++ frame_bytes f2 ++ padding) status =
    (real_of_uint8 (command_id f2), Some 1) /\
  exists quiet k,
    snd (mdlOutputs (ops := SBGC.parser_ops)
           (mkSimStruct (frame_bytes f1 ++ frame_bytes f2 ++ padding)
                        status 0 None)) = quiet ++ [k] /\
    Forall (fun q => call_ret q = Byte.x00) quiet /\ call_ret k = Byte.x01 /\
    forall d c,
      snd (SBGC.feed d c) = SBGC.FRAME_DISCARDED ->
      SBGC.cur_phase (fst (SBGC.feed d c)) = SBGC.SEEK_HEADER.
Proof.
  intros Hv (Hl & Hbad) Hw Hside. rewrite decode_unfold.
  assert (Hseek : exists d,
            SBGC.feeds SBGC.fresh (frame_bytes f1) = Some d /\
            SBGC.cur_phase d = SBGC.SEEK_HEADER).
  { destruct (Byte.byte_eq_dec (header_checksum f1)
                (SBGC.checksum [command_id f1; payload_length f1])) as [Hh|Hh].
    - apply feeds_bad_payload; auto. tauto.
    - destruct Hside as [Hok|Hno]; [contradiction|].
      destruct (feeds_bad_header f1 SBGC.fresh eq_refl Hh) as (d & Hd & Hp).
      exists d. split; [|exact Hp].
      unfold frame_bytes.
      change (SBGC.header :: command_id f1 :: payload_length f1
                :: header_checksum f1 :: payload f1 ++ [payload_checksum f1])
        with ([SBGC.header; command_id f1; payload_length f1;
               header_checksum f1] ++ payload f1 ++ [payload_checksum f1]).
      rewrite feeds_app, Hd. apply feeds_skip; assumption. }
  destruct Hseek as (d & Hd & Hp).
  rewrite (frame_found f2
             (mkSimStruct (frame_bytes f1 ++ frame_bytes f2 ++ padding)
                          status 0 None)
             (frame_bytes f1) padding d Hv eq_refl Hd Hp Hw).
  split; [reflexivity|]. cbn [snd].
  eexists _, _. split; [reflexivity|]. split; [|split; [reflexivity|]].
  - apply Forall_forall. intros q Hq. apply in_map_iff in Hq.
    destruct Hq as (c & <- & _). reflexivity.
  - intros d0 c0 Hr.
    destruct (feed_error_count d0 c0) as [(_ & Hph & _) | (Hn & _)];
      [exact Hph | contradiction].
Qed.

(** C6: under a valid flag and on a non-empty buffer, when no call of
    [process_char] reports a complete frame -- with any parser -- the
    outputs are Output A = 0 and Output B = 0, not the sentinel -1; and a
    buffer without the header byte 0x3E is such a buffer for the frame
    decoder. *)
Theorem no_frame_gives_zero_outputs (S : SimStruct) :
  input_valid (InputPortSignal1 S) ->
  InputPortSignal0 S <> [] ->
  (forall (P : Type) (ops : SBGC_ParserOps P),
     Forall (fun k => ~ frame_call k) (snd (mdlOutputs (ops := ops) S)) ->
     outputs (fst (mdlOutputs (ops := ops) S)) = (0, Some 0)) /\
  (~ In SBGC.header (InputPortSignal0 S) ->
   Forall (fun k => ~ frame_call k)
          (snd (mdlOutputs (ops := SBGC.parser_ops) S)) /\
   outputs (fst (mdlOutputs (ops := SBGC.parser_ops) S)) = (0, Some 0)).
Proof.
  intros Hv Hne. split.
  - intros P ops Hq. apply no_frame_outputs; assumption.
  - intros Hno.
    rewrite (mdlOutputs_not_found S SBGC.fresh Hv Hne
               (feeds_skip _ SBGC.fresh eq_refl Hno)).
    split; [|reflexivity]. cbn [snd].
    apply Forall_forall. intros q Hq. apply in_map_iff in Hq.
    destruct Hq as (c & <- & _). unfold frame_call, quiet_call.
    cbn [call_ret]. vm_compute. discriminate.
Qed.

(** C9: under a valid flag Output A is 0, or else it is the command id of a
    frame that lies in the buffer, ends at the last byte fed to the parser
    and passed both checksums (and then Output B = 1).  The identifier of a
    frame attempt dropped for a checksum failure never reaches Output A. *)
Theorem output_A_zero_or_checked_id (S : SimStruct) :
  input_valid (InputPortSignal1 S) ->
  OutputPortSignal0 (fst (mdlOutputs (ops := SBGC.parser_ops) S)) = 0 \/
  exists pre f post,
    InputPortSignal0 S = pre ++ frame_bytes f ++ post /\
    well_formed f /\
    map call_arg (snd (mdlOutputs (ops := SBGC.parser_ops) S)) =
      pre ++ frame_bytes f /\
    outputs (fst (mdlOutputs (ops := SBGC.parser_ops) S)) =
      (real_of_uint8 (command_id f), Some 1).
Proof.
  intros Hv.
  destruct (feeds_dichotomy (InputPortSignal0 S) SBGC.fresh)
    as [[d1 H1] | (a & c & rest & d1 & d2 & Hu & Ha & Hc)].
  - left. rewrite (mdlOutputs_valid S Hv). cbn [fst set_outputs OutputPortSignal0].
    destruct (for_loop_feeds _ loop_entry d1 errs_seen_entry
                stopped_loop_entry H1) as (_ & _ & _ & Hy & _).
    rewrite Hy. reflexivity.
  - right.
    pose proof (feeds_tracks a [] SBGC.fresh d1 I Ha) as Ht.
    pose proof (feed_tracks _ d1 c Ht) as Hs. rewrite Hc in Hs.
    destruct Hs as (pre & f & Hcons & Hw & Hid). cbn [app] in Hcons.
    exists pre, f, rest.
    rewrite (mdlOutputs_found S a rest c d1 d2 Hv Hu Ha Hc).
    cbn [fst snd]. split; [|split; [exact Hw | split]].
    + rewrite Hu, app_assoc, <- Hcons, <- app_assoc. reflexivity.
    + rewrite map_app, map_map. cbn [map call_arg quiet_call].
      rewrite map_id. exact Hcons.
    + rewrite Hid. reflexivity.
Qed.

End DecodeCycle.

(** ** The theorems at concrete buffers *)

Lemma well_formed_frame_decodes_witness :
  input_valid 1%float /\
  well_formed (encode Byte.x07 [Byte.x01; Byte.x02]) /\
  decode (frame_bytes (encode Byte.x07 [Byte.x01; Byte.x02])
            ++ [Byte.x00; Byte.x3e]) 1%float = (7, Some 1).
Proof.
  assert (Hv : input_valid 1%float) by reflexivity.
  assert (Hw : well_formed (encode Byte.x07 [Byte.x01; Byte.x02]))
    by (repeat split).
  split; [exact Hv|]. split; [exact Hw|].
  exact (well_formed_frame_decodes _ [Byte.x00; Byte.x3e] 1%float Hv Hw).
Defined.

Lemma concrete_frame_decodes_witness :
  input_valid 1%float /\
  decode [Byte.x3e; Byte.x01; Byte.x00; Byte.x01; Byte.x00] 1%float
    = (1, Some 1).
Proof.
  assert (Hv : input_valid 1%float) by reflexivity.
  split; [exact Hv|]. exact (proj1 (concrete_frame_decodes 1%float Hv)).
Defined.

Lemma resync_after_corrupted_frame_witness :
  input_valid 1%float /\
  corrupted frame_bad_payload /\
  well_formed (encode Byte.x09 []) /\
  header_checksum_ok frame_bad_payload /\
  decode (frame_bytes frame_bad_payload ++ frame_bytes (encode Byte.x09 [])
            ++ [Byte.x00]) 1%float = (9, Some 1).
Proof.
  assert (Hv : input_valid 1%float) by reflexivity.
  assert (Hh : header_checksum_ok frame_bad_payload) by reflexivity.
  assert (Hc : corrupted frame_bad_payload).
  { split; [reflexivity|]. right. unfold payload_checksum_ok. vm_compute.
    discriminate. }
  assert (Hw : well_formed (encode Byte.x09 [])) by (repeat split).
  repeat (split; [assumption|]).
  exact (proj1 (resync_after_corrupted_frame frame_bad_payload
                  (encode Byte.x09 []) [Byte.x00] 1%float Hv Hc Hw
                  (or_introl Hh))).
Defined.

Lemma no_data_gives_sentinel_witness :
  (0 <? 0.5)%float = true /\
  outputs (fst (mdlOutputs (ops := SBGC.parser_ops)
                  (set_inputs port_one_frame (InputPortSignal0 port_one_frame)
                              0%float))) = (-1, Some (-1)).
Proof.
  assert (Hv : (0 <? 0.5)%float = true) by reflexivity.
  split; [exact Hv|].
  exact (proj1 (proj2
    (no_data_gives_sentinel (ops := SBGC.parser_ops)
       (set_inputs port_one_frame (InputPortSignal0 port_one_frame) 0%float)
       (set_inputs port_no_header [] 0%float) Hv Hv))).
Defined.

Lemma first_frame_stops_decoding_witness :
  input_valid (InputPortSignal1 port_one_frame) /\
  InputPortSignal0 port_one_frame =
    [Byte.x3e; Byte.x01; Byte.x00; Byte.x01] ++ Byte.x00 :: [Byte.xff] /\
  Forall (fun k => ~ frame_call k)
    (calls_from (ops := SBGC.parser_ops) driver_start
       [Byte.x3e; Byte.x01; Byte.x00; Byte.x01]) /\
  0 < byte.unsigned
        (returned_after (ops := SBGC.parser_ops)
           [Byte.x3e; Byte.x01; Byte.x00; Byte.x01] Byte.x00) /\
  OutputPortSignal0 (fst (mdlOutputs (ops := SBGC.parser_ops) port_one_frame))
    = 1 /\
  OutputPortSignal1 (fst (mdlOutputs (ops := SBGC.parser_ops) port_one_frame))
    = Some 1.
Proof.
  assert (Hv : input_valid (InputPortSignal1 port_one_frame)) by reflexivity.
  assert (Hu : InputPortSignal0 port_one_frame =
               [Byte.x3e; Byte.x01; Byte.x00; Byte.x01] ++ Byte.x00 :: [Byte.xff])
    by reflexivity.
  assert (Hq : Forall (fun k => ~ frame_call k)
                 (calls_from (ops := SBGC.parser_ops) driver_start
                    [Byte.x3e; Byte.x01; Byte.x00; Byte.x01])).
  { apply Forall_forall. intros k Hk. vm_compute in Hk.
    repeat (destruct Hk as [<-|Hk]; [vm_compute; intros H; discriminate H|]).
    destruct Hk. }
  assert (Hpos : 0 < byte.unsigned
                       (returned_after (ops := SBGC.parser_ops)
                          [Byte.x3e; Byte.x01; Byte.x00; Byte.x01] Byte.x00))
    by reflexivity.
  split; [exact Hv|]. split; [exact Hu|]. split; [exact Hq|].
  split; [exact Hpos|].
  destruct (first_frame_stops_decoding (ops := SBGC.parser_ops) port_one_frame
              [Byte.x3e; Byte.x01; Byte.x00; Byte.x01] [Byte.xff] Byte.x00
              Hv Hu Hq Hpos) as (_ & _ & HA & HB & _).
  split; [exact HA | exact HB].
Defined.

Lemma whole_port_is_fed_witness :
  port_sized 2 port_no_header /\
  input_valid (InputPortSignal1 port_no_header) /\
  ((Forall (fun k => ~ frame_call k)
           (calls_from (ops := SBGC.parser_ops) driver_start
              (InputPortSignal0 port_no_header)) /\
    snd (mdlOutputs (ops := SBGC.parser_ops) port_no_header) =
      calls_from driver_start (InputPortSignal0 port_no_header) /\
    map call_arg (snd (mdlOutputs (ops := SBGC.parser_ops) port_no_header))
      = InputPortSignal0 port_no_header /\
    length (snd (mdlOutputs (ops := SBGC.parser_ops) port_no_header)) = 2%nat /\
    driven (for_loop (InputPortSignal0 port_no_header)
                     (loop_entry (ops := SBGC.parser_ops))) =
      after_bytes (InputPortSignal0 port_no_header))
   \/
   (exists pre c rest,
      InputPortSignal0 port_no_header = pre ++ c :: rest /\
      Forall (fun k => ~ frame_call k)
             (calls_from (ops := SBGC.parser_ops) driver_start pre) /\
      0 < byte.unsigned (returned_after (ops := SBGC.parser_ops) pre c) /\
      snd (mdlOutputs (ops := SBGC.parser_ops) port_no_header) =
        calls_from driver_start (pre ++ [c]) /\
      map call_arg (snd (mdlOutputs (ops := SBGC.parser_ops) port_no_header))
        = pre ++ [c] /\
      driven (for_loop (InputPortSignal0 port_no_header)
                       (loop_entry (ops := SBGC.parser_ops))) =
        after_bytes (pre ++ [c]))).
Proof.
  assert (Hw : port_sized 2 port_no_header) by reflexivity.
  assert (Hv : input_valid (InputPortSignal1 port_no_header)) by reflexivity.
  split; [exact Hw|]. split; [exact Hv|].
  exact (whole_port_is_fed (ops := SBGC.parser_ops) 2 port_no_header Hw Hv).
Defined.

Lemma output_B_is_last_return_witness :
  input_valid (InputPortSignal1 port_one_frame) /\
  (0 < length (InputPortSignal0 port_one_frame))%nat /\
  exists pre c rest,
    InputPortSignal0 port_one_frame = pre ++ c :: rest /\
    Forall (fun k => ~ frame_call k)
           (calls_from (ops := SBGC.parser_ops) driver_start pre) /\
    (rest = [] \/
     0 < byte.unsigned (returned_after (ops := SBGC.parser_ops) pre c)) /\
    snd (mdlOutputs (ops := SBGC.parser_ops) port_one_frame) =
      calls_from driver_start pre ++ [mkCall c (returned_after pre c)] /\
    OutputPortSignal1 (fst (mdlOutputs (ops := SBGC.parser_ops) port_one_frame))
      = Some (real_of_uint8 (returned_after pre c)).
Proof.
  assert (Hv : input_valid (InputPortSignal1 port_one_frame)) by reflexivity.
  assert (Hlen : (0 < length (InputPortSignal0 port_one_frame))%nat)
    by (simpl; lia).
  split; [exact Hv|]. split; [exact Hlen|].
  exact (proj1 (output_B_is_last_return (ops := SBGC.parser_ops)
                  port_one_frame Hv) Hlen).
Defined.

Lemma no_frame_gives_zero_outputs_witness :
  input_valid (InputPortSignal1 port_no_header) /\
  InputPortSignal0 port_no_header <> [] /\
  outputs (fst (mdlOutputs (ops := SBGC.parser_ops) port_no_header))
    = (0, Some 0).
Proof.
  assert (Hv : input_valid (InputPortSignal1 port_no_header)) by reflexivity.
  assert (Hne : InputPortSignal0 port_no_header <> []) by discriminate.
  split; [exact Hv|]. split; [exact Hne|].
  apply (proj2 (no_frame_gives_zero_outputs port_no_header Hv Hne)).
  simpl. intros [H|[H|H]]; [discriminate H | discriminate H | exact H].
Defined.

Lemma output_A_zero_or_checked_id_witness :
  input_valid (InputPortSignal1 port_one_frame) /\
  (OutputPortSignal0 (fst (mdlOutputs (ops := SBGC.parser_ops) port_one_frame))
     = 0 \/
   exists pre f post,
     InputPortSignal0 port_one_frame = pre ++ frame_bytes f ++ post /\
     well_formed f /\
     map call_arg (snd (mdlOutputs (ops := SBGC.parser_ops) port_one_frame)) =
       pre ++ frame_bytes f /\
     outputs (fst (mdlOutputs (ops := SBGC.parser_ops) port_one_frame)) =
       (real_of_uint8 (command_id f), Some 1)).
Proof.
  assert (Hv : input_valid (InputPortSignal1 port_one_frame)) by reflexivity.
  split; [exact Hv|].
  exact (output_A_zero_or_checked_id port_one_frame Hv).
Defined.

(** ** Further properties of the decode cycle, for every parser *)

Section CycleProperties.

Context {P : Type} {ops : SBGC_ParserOps P}.

#[local] Arguments for_loop : simpl never.
#[local] Arguments byte.unsigned : simpl never.

Lemma real_of_uint8_range (b : byte) : 0 <= real_of_uint8 b <= 255.
Proof. unfold real_of_uint8. pose proof (byte.unsigned_range b). lia. Qed.

(** What the loop leaves in [y0] is the value it started with or the value
    of a [uint8_T]. *)
Lemma for_loop_y0_range (ahead : list byte) (l : locals P) :
  stopped l = false -> 0 <= y0 l <= 255 -> 0 <= y0 (for_loop ahead l) <= 255.
Proof.
  intros Hl Hy. destruct (for_loop_history ahead l Hl) as [new [_ Hh]].
  destruct (stopped (for_loop ahead l)).
  - destruct Hh as (quiet & k & rest & _ & _ & _ & _ & _ & H6 & _).
    rewrite H6. apply real_of_uint8_range.
  - destruct Hh as (_ & _ & _ & H4). rewrite H4. exact Hy.
Qed.

Lemma valid_outputs_range (S : SimStruct) :
  input_valid (InputPortSignal1 S) ->
  0 <= OutputPortSignal0 (fst (mdlOutputs S)) <= 255 /\
  forall b, OutputPortSignal1 (fst (mdlOutputs S)) = Some b -> 0 <= b <= 255.
Proof.
  intros Hv. rewrite (mdlOutputs_valid S Hv).
  cbn [fst set_outputs OutputPortSignal0 OutputPortSignal1]. split.
  - apply for_loop_y0_range; [reflexivity | cbn [loop_entry y0]; lia].
  - intros b Hb.
    destruct (done (for_loop (InputPortSignal0 S) loop_entry)) as [d|];
      cbn [option_map] in Hb; [|discriminate].
    inversion Hb; subst. apply real_of_uint8_range.
Qed.

(** X1: the sentinel -1 appears on Output A, and likewise on Output B,
    exactly when the flag compares below 0.5; on every other cycle Output A
    lies in 0..255 and so does Output B whenever it was assigned.  This holds
    for every parser and every buffer. *)
Theorem sentinel_marks_no_data (S : SimStruct) :
  (OutputPortSignal0 (fst (mdlOutputs S)) = -1 <->
   (InputPortSignal1 S <? 0.5)%float = true) /\
  (OutputPortSignal1 (fst (mdlOutputs S)) = Some (-1) <->
   (InputPortSignal1 S <? 0.5)%float = true) /\
  (input_valid (InputPortSignal1 S) ->
   0 <= OutputPortSignal0 (fst (mdlOutputs S)) <= 255 /\
   forall b, OutputPortSignal1 (fst (mdlOutputs S)) = Some b -> 0 <= b <= 255).
Proof.
  destruct (InputPortSignal1 S <? 0.5)%float eqn:E.
  - rewrite (mdlOutputs_no_data S E).
    cbn [fst set_outputs OutputPortSignal0 OutputPortSignal1].
    split; [tauto|]. split; [tauto|].
    unfold input_valid. intros H. rewrite E in H. discriminate.
  - destruct (valid_outputs_range S E) as [HA HB].
    split; [|split].
    + split; [|discriminate]. intros H. rewrite H in HA. lia.
    + split; [|discriminate]. intros H. specialize (HB _ H). lia.
    + intros _. split; assumption.
Qed.

(** *** The guard on the flag *)

Lemma SFcompare_refl (x : spec_float) :
  x <> S754_nan -> SFcompare x x = Some Eq.
Proof.
  destruct x as [s|s| |s m e]; intros Hx; simpl;
    try congruence; try (destruct s; reflexivity).
  destruct s; rewrite Z.compare_refl, Pos.compare_cont_refl; reflexivity.
Qed.

Lemma SFcompare_None_finite (x : spec_float) (s : bool) (m : positive) (e : Z) :
  SFcompare x (S754_finite s m e) = None -> x = S754_nan.
Proof.
  destruct x as [sx|sx| |sx mx ex]; simpl; intros H;
    try reflexivity; discriminate.
Qed.

Lemma is_nan_spec (x : float) : is_nan x = true <-> Prim2SF x = S754_nan.
Proof.
  unfold is_nan. rewrite eqb_spec. unfold SFeqb. split.
  - intros H. destruct (Prim2SF x) as [s|s| |s m e] eqn:E;
      try reflexivity; rewrite SFcompare_refl in H by discriminate;
      discriminate.
  - intros ->. reflexivity.
Qed.

Lemma half_spec : Prim2SF 0.5 = S754_finite false 4503599627370496 (-53).
Proof. reflexivity. Qed.

(** The guard [status[0] < 0.5f] fails exactly for a flag that compares at
    or above 0.5, and for a NaN. *)
Lemma guard_false_iff (status : float) :
  input_valid status <->
  ((0.5 <=? status)%float = true \/ is_nan status = true).
Proof.
  unfold input_valid. rewrite ltb_spec, leb_spec, is_nan_spec, half_spec.
  unfold SFltb, SFleb.
  rewrite (SFcompare_antisym (Prim2SF status)
             (S754_finite false 4503599627370496 (-53))).
  destruct (SFcompare (Prim2SF status)
              (S754_finite false 4503599627370496 (-53))) as [[]|] eqn:E;
    cbn [option_map CompOpp]; split; intros H; auto; try discriminate.
  - destruct H as [H|H]; [discriminate|]. rewrite H in E. discriminate.
  - right. eapply SFcompare_None_finite. exact E.
Qed.

(** X2: the decoder runs -- Output A is not the sentinel -1 -- exactly when
    the flag compares at or above 0.5 or is a NaN: a NaN flag counts as
    "data available". *)
Theorem decoder_runs_iff_flag_ge_half_or_nan (S : SimStruct) :
  OutputPortSignal0 (fst (mdlOutputs S)) <> -1 <->
  ((0.5 <=? InputPortSignal1 S)%float = true \/
   is_nan (InputPortSignal1 S) = true).
Proof.
  rewrite <- guard_false_iff. unfold input_valid.
  destruct (InputPortSignal1 S <? 0.5)%float eqn:E.
  - rewrite (mdlOutputs_no_data S E).
    cbn [fst set_outputs OutputPortSignal0]. split; [congruence|discriminate].
  - destruct (valid_outputs_range S E) as [HA _].
    split; [reflexivity|]. intros _ H. rewrite H in HA. lia.
Qed.

(** *** A parser that returns 0 or 1 *)

(** Every value in the history was returned by [process_char] for the byte
    recorded with it. *)
Lemma for_loop_calls_returned (ahead : list byte) : forall l : locals P,
  Forall (fun k => exists p, call_ret k = snd (process_char p (call_arg k)))
         (calls l) ->
  Forall (fun k => exists p, call_ret k = snd (process_char p (call_arg k)))
         (calls (for_loop ahead l)).
Proof.
  induction ahead as [|c ahead IH]; intros l Hl.
  - rewrite for_loop_nil. exact Hl.
  - rewrite for_loop_cons.
    assert (Hb : Forall (fun k => exists p,
                           call_ret k = snd (process_char p (call_arg k)))
                        (calls (fst (loop_body c l)))).
    { rewrite loop_body_calls. apply Forall_app. split; [exact Hl|].
      constructor; [|constructor]. exists (sbgc_parser l). reflexivity. }
    destruct (stopped (fst (loop_body c l))); [exact Hb|].
    apply IH. exact Hb.
Qed.

(** X3: with a parser whose [process_char] returns only 0 or 1, a cycle with
    a valid flag on a non-empty buffer ends in one of two ways: no call
    reported a frame and the outputs are (0, 0); or the last call reported
    one, Output B is 1 and Output A is the identifier held by the parser. *)
Theorem outputs_done_or_not (S : SimStruct) :
  returns_busy_or_done ops ->
  input_valid (InputPortSignal1 S) ->
  InputPortSignal0 S <> [] ->
  (outputs (fst (mdlOutputs S)) = (0, Some 0) /\
   Forall (fun k => call_ret k = Byte.x00) (snd (mdlOutputs S)))
  \/
  (OutputPortSignal1 (fst (mdlOutputs S)) = Some 1 /\
   OutputPortSignal0 (fst (mdlOutputs S)) =
     real_of_uint8
       (in_cmd_id (sbgc_parser (for_loop (InputPortSignal0 S) loop_entry))) /\
   exists quiet k,
     snd (mdlOutputs S) = quiet ++ [k] /\
     Forall (fun q => call_ret q = Byte.x00) quiet /\ call_ret k = Byte.x01).
Proof.
  intros Hret Hv Hne. rewrite (mdlOutputs_valid S Hv). cbn [fst snd].
  unfold outputs. cbn [set_outputs OutputPortSignal0 OutputPortSignal1].
  destruct (for_loop_history (InputPortSignal0 S) loop_entry stopped_loop_entry)
    as [new [Hc Hh]].
  cbn [loop_entry calls app] in Hc.
  destruct (for_loop_done _ loop_entry stopped_loop_entry Hne)
    as (cs & k & Hck & Hd).
  pose proof (for_loop_calls_returned (InputPortSignal0 S) loop_entry
                (Forall_nil _)) as Hall.
  assert (Hbit : forall q, In q (calls (for_loop (InputPortSignal0 S) loop_entry)) ->
                 call_ret q = Byte.x00 \/ call_ret q = Byte.x01).
  { intros q Hq. rewrite Forall_forall in Hall.
    destruct (Hall q Hq) as [p ->]. apply Hret. }
  assert (Hzero : forall q, In q (calls (for_loop (InputPortSignal0 S) loop_entry)) ->
                  ~ frame_call q -> call_ret q = Byte.x00).
  { intros q Hq Hnf. destruct (Hbit q Hq) as [H|H]; [exact H|].
    exfalso. apply Hnf. unfold frame_call. rewrite H. reflexivity. }
  destruct (stopped (for_loop (InputPortSignal0 S) loop_entry)) eqn:E.
  - right. destruct Hh as (quiet & k' & rest & H1 & _ & H3 & H4 & _ & H6 & _).
    rewrite H1 in Hc. rewrite Hc in Hck.
    apply app_inj_tail in Hck. destruct Hck as [_ <-].
    assert (Hk : call_ret k' = Byte.x01).
    { assert (Hin : In k' (calls (for_loop (InputPortSignal0 S) loop_entry))).
      { rewrite Hc. apply in_or_app. right. left. reflexivity. }
      destruct (Hbit k' Hin) as [H|H]; [|exact H].
      exfalso. unfold frame_call in H4. rewrite H in H4.
      revert H4. vm_compute. discriminate. }
    split; [|split].
    + rewrite Hd, Hk. reflexivity.
    + exact H6.
    + exists quiet, k'. split; [exact Hc|]. split; [|exact Hk].
      apply Forall_forall. intros q Hq. apply Hzero.
      * rewrite Hc. apply in_or_app. left. exact Hq.
      * rewrite Forall_forall in H3. apply H3. exact Hq.
  - left. destruct Hh as (_ & H2 & _ & H4).
    assert (Hall0 : Forall (fun q => call_ret q = Byte.x00)
                      (calls (for_loop (InputPortSignal0 S) loop_entry))).
    { apply Forall_forall. intros q Hq. apply Hzero; [exact Hq|].
      rewrite Forall_forall in H2. apply H2. rewrite <- Hc. exact Hq. }
    split; [|exact Hall0].
    rewrite H4, Hd. cbn [loop_entry y0 option_map].
    rewrite Forall_forall in Hall0. rewrite (Hall0 k); [reflexivity|].
    rewrite Hck. apply in_or_app. right. left. reflexivity.
Qed.

(** *** Bytes ahead of the header char *)

Lemma same_core_next_uidx (l l' : locals P) :
  same_core l l' -> same_core (next_uidx l) (next_uidx l').
Proof. intros H. exact H. Qed.

Lemma stopped_same_core (l l' : locals P) :
  same_core l l' -> stopped l = stopped l'.
Proof. intros (_ & _ & Hd & _). unfold stopped. rewrite Hd. reflexivity. Qed.

(** The loop body looks at the parser, at [numErr_start] and at [y0] only:
    neither the old value of [done] nor the loop index reaches the result. *)
Lemma loop_body_core (c : byte) (l l' : locals P) :
  sbgc_parser l = sbgc_parser l' ->
  numErr_start l = numErr_start l' ->
  y0 l = y0 l' ->
  same_core (fst (loop_body c l)) (fst (loop_body c l')).
Proof.
  intros Hp Hn Hy. unfold same_core, loop_body. rewrite Hp, Hn, Hy.
  destruct (process_char (sbgc_parser l') c) as [p1 d].
  destruct (numErr_start l' <? get_parse_error_count p1);
    destruct (0 <? byte.unsigned d); repeat split.
Qed.

Lemma for_loop_core (ahead : list byte) : forall l l' : locals P,
  same_core l l' -> same_core (for_loop ahead l) (for_loop ahead l').
Proof.
  induction ahead as [|c ahead IH]; intros l l' Hs.
  - rewrite !for_loop_nil. exact Hs.
  - rewrite !for_loop_cons.
    destruct Hs as (Hp & Hn & _ & Hy).
    pose proof (loop_body_core c l l' Hp Hn Hy) as Hb.
    rewrite (stopped_same_core _ _ Hb).
    destruct (stopped (fst (loop_body c l'))); [exact Hb|].
    apply IH. apply same_core_next_uidx. exact Hb.
Qed.

Lemma for_loop_core_nonempty (ahead : list byte) (l l' : locals P) :
  ahead <> [] ->
  sbgc_parser l = sbgc_parser l' ->
  numErr_start l = numErr_start l' ->
  y0 l = y0 l' ->
  same_core (for_loop ahead l) (for_loop ahead l').
Proof.
  intros Hne Hp Hn Hy. destruct ahead as [|c ahead]; [congruence|].
  rewrite !for_loop_cons.
  pose proof (loop_body_core c l l' Hp Hn Hy) as Hb.
  rewrite (stopped_same_core _ _ Hb).
  destruct (stopped (fst (loop_body c l'))); [exact Hb|].
  apply for_loop_core. apply same_core_next_uidx. exact Hb.
Qed.

(** A run of characters other than the header char leaves a fresh parser
    fresh; each call returns 0. *)
Lemma for_loop_garbage (g : list byte) : forall l : locals P,
  discards_before_header ops ->
  sbgc_parser l = init_noCom ->
  numErr_start l = get_parse_error_count init_noCom ->
  ~ In header_char g ->
  sbgc_parser (for_loop g l) = init_noCom /\
  numErr_start (for_loop g l) = numErr_start l /\
  y0 (for_loop g l) = y0 l /\
  calls (for_loop g l) = calls l ++ map quiet_call g /\
  (g <> [] -> done (for_loop g l) = Some Byte.x00).
Proof.
  induction g as [|c g IH]; intros l Hdis Hp Hn Hno.
  - rewrite for_loop_nil, app_nil_r. repeat split; auto. congruence.
  - assert (Hc : c <> header_char).
    { intros ->. apply Hno. left. reflexivity. }
    assert (Hb : fst (loop_body c l) =
                 mkLocals init_noCom (numErr_start l) (Some Byte.x00) (y0 l)
                          (uidx l) (calls l ++ [quiet_call c])).
    { unfold loop_body. rewrite Hp, (Hdis c Hc), Hn, Z.ltb_irrefl.
      reflexivity. }
    rewrite for_loop_cons, Hb.
    change (stopped (mkLocals init_noCom (numErr_start l) (Some Byte.x00)
                       (y0 l) (uidx l) (calls l ++ [quiet_call c])))
      with false.
    destruct (IH (next_uidx
                    (mkLocals init_noCom (numErr_start l) (Some Byte.x00)
                       (y0 l) (uidx l) (calls l ++ [quiet_call c]))) Hdis)
      as (I1 & I2 & I3 & I4 & I5); auto.
    { intros Hin. apply Hno. right. exact Hin. }
    cbn [next_uidx numErr_start y0 calls] in I2, I3, I4.
    repeat split; auto.
    + rewrite I4, <- app_assoc. reflexivity.
    + intros _. destruct g as [|c' g].
      * rewrite for_loop_nil. reflexivity.
      * apply I5. discriminate.
Qed.

Lemma numErr_start_entry :
  error_count_fits ops ->
  numErr_start loop_entry = get_parse_error_count init_noCom.
Proof.
  unfold error_count_fits. intros Hfit. cbn [loop_entry numErr_start].
  unfold uint16_T. apply Z.mod_small. exact Hfit.
Qed.

(** X4: with a parser that, freshly initialised, discards characters other
    than '>' (and whose error count fits [numErr_start]), bytes other than
    '>' put in front of a non-empty buffer do not change the outputs of the
    cycle. *)
Theorem garbage_prefix_ignored (S : SimStruct) (g : list byte) :
  discards_before_header ops ->
  error_count_fits ops ->
  input_valid (InputPortSignal1 S) ->
  ~ In header_char g ->
  InputPortSignal0 S <> [] ->
  outputs (fst (mdlOutputs
                  (set_inputs S (g ++ InputPortSignal0 S) (InputPortSignal1 S))))
  = outputs (fst (mdlOutputs S)).
Proof.
  intros Hdis Hfit Hv Hno Hne.
  rewrite (mdlOutputs_valid S Hv).
  rewrite mdlOutputs_valid by exact Hv.
  unfold outputs.
  cbn [fst set_outputs set_inputs InputPortSignal0 OutputPortSignal0
       OutputPortSignal1].
  destruct (for_loop_garbage g loop_entry Hdis eq_refl
              (numErr_start_entry Hfit) Hno) as (G1 & G2 & G3 & G4 & G5).
  assert (Hst : stopped (for_loop g loop_entry) = false).
  { unfold stopped. destruct g as [|c g].
    - rewrite for_loop_nil. reflexivity.
    - rewrite G5 by discriminate. reflexivity. }
  rewrite (for_loop_app g (InputPortSignal0 S) loop_entry stopped_loop_entry).
  rewrite Hst.
  destruct (for_loop_core_nonempty (InputPortSignal0 S)
              (for_loop g loop_entry) loop_entry Hne G1 G2 G3)
    as (_ & _ & Hd & Hy).
  rewrite Hd, Hy. reflexivity.
Qed.

(** X5: with such a parser, a non-empty buffer that holds no '>' gives
    Output A = 0 and Output B = 0, every byte of it having been fed and
    answered with 0. *)
Theorem buffer_without_header_char (S : SimStruct) :
  discards_before_header ops ->
  error_count_fits ops ->
  input_valid (InputPortSignal1 S) ->
  InputPortSignal0 S <> [] ->
  ~ In header_char (InputPortSignal0 S) ->
  outputs (fst (mdlOutputs S)) = (0, Some 0) /\
  snd (mdlOutputs S) = map quiet_call (InputPortSignal0 S).
Proof.
  intros Hdis Hfit Hv Hne Hno. rewrite (mdlOutputs_valid S Hv).
  destruct (for_loop_garbage _ loop_entry Hdis eq_refl
              (numErr_start_entry Hfit) Hno) as (_ & _ & G3 & G4 & G5).
  unfold outputs. cbn [fst snd set_outputs OutputPortSignal0 OutputPortSignal1].
  rewrite G3, G4, (G5 Hne). split; reflexivity.
Qed.

(** *** Longer buffers *)

(** X6: what a cycle does on a buffer is the beginning of what it does on
    any longer buffer: the calls made for [a ++ b] are the calls made for
    [a], followed by calls on bytes of [b] in order (none at all when a
    frame completed inside [a], or when the flag is below 0.5). *)
Theorem history_extends_with_buffer (S : SimStruct) (a b : list byte) (status : float) :
  exists more rest,
    snd (mdlOutputs (set_inputs S (a ++ b) status)) =
      snd (mdlOutputs (set_inputs S a status)) ++ more /\
    b = map call_arg more ++ rest /\
    (Exists frame_call (snd (mdlOutputs (set_inputs S a status))) -> more = []).
Proof.
  unfold mdlOutputs. cbn [set_inputs InputPortSignal0 InputPortSignal1].
  destruct (status <? 0.5)%float.
  - exists [], b. cbn [snd]. repeat split. 
  - cbn [snd].
    rewrite (for_loop_app a b loop_entry stopped_loop_entry).
    destruct (for_loop_history a loop_entry stopped_loop_entry)
      as [new_a [Hca Hha]].
    cbn [loop_entry calls app] in Hca.
    destruct (stopped (for_loop a loop_entry)) eqn:E.
    + exists [], b. rewrite app_nil_r. repeat split.
    + destruct (for_loop_history b (for_loop a loop_entry) E)
        as [new [Hc Hh]].
      assert (Hquiet : Exists frame_call (calls (for_loop a loop_entry)) ->
                       False).
      { destruct Hha as (_ & Hq & _). rewrite Hca. intros Hex.
        apply Exists_exists in Hex. destruct Hex as (k & Hin & Hk).
        rewrite Forall_forall in Hq. exact (Hq k Hin Hk). }
      destruct (stopped (for_loop b (for_loop a loop_entry))).
      * destruct Hh as (quiet & k & rest & _ & H2 & _).
        exists new, rest. split; [exact Hc|]. split; [exact H2|].
        intros Hex. destruct (Hquiet Hex).
      * destruct Hh as (H1 & _).
        exists new, []. split; [exact Hc|]. split.
        -- rewrite app_nil_r. exact H1.
        -- intros Hex. destruct (Hquiet Hex).
Qed.

End CycleProperties.

(** *** The frame decoder behaves as the source says of [process_char] *)

Lemma sbgc_returns_busy_or_done : returns_busy_or_done SBGC.parser_ops.
Proof.
  intros p c. cbn [process_char SBGC.parser_ops]. unfold SBGC.process_char.
  destruct (SBGC.feed p c) as [d' r]. destruct r; cbn [snd]; auto.
Qed.

Lemma sbgc_discards_before_header : discards_before_header SBGC.parser_ops.
Proof.
  intros c Hc. cbn [process_char init_noCom SBGC.parser_ops].
  unfold SBGC.process_char, SBGC.feed. cbn [SBGC.cur_phase SBGC.fresh].
  rewrite (eqb_neq c SBGC.header Hc). reflexivity.
Qed.

Lemma sbgc_error_count_fits : error_count_fits SBGC.parser_ops.
Proof. unfold error_count_fits. cbn. lia. Qed.

Lemma outputs_done_or_not_witness :
  returns_busy_or_done SBGC.parser_ops /\
  input_valid (InputPortSignal1 port_one_frame) /\
  InputPortSignal0 port_one_frame <> [] /\
  OutputPortSignal1 (fst (mdlOutputs (ops := SBGC.parser_ops) port_one_frame))
    = Some 1.
Proof.
  assert (Hv : input_valid (InputPortSignal1 port_one_frame)) by reflexivity.
  assert (Hne : InputPortSignal0 port_one_frame <> []) by discriminate.
  split; [exact sbgc_returns_busy_or_done|]. split; [exact Hv|].
  split; [exact Hne|].
  destruct (outputs_done_or_not (ops := SBGC.parser_ops) port_one_frame
              sbgc_returns_busy_or_done Hv Hne) as [[H _] | [H _]].
  - vm_compute in H. discriminate H.
  - exact H.
Defined.

Lemma garbage_prefix_ignored_witness :
  discards_before_header SBGC.parser_ops /\
  error_count_fits SBGC.parser_ops /\
  input_valid (InputPortSignal1 port_one_frame) /\
  ~ In header_char [Byte.x00; Byte.xff] /\
  InputPortSignal0 port_one_frame <> [] /\
  outputs (fst (mdlOutputs (ops := SBGC.parser_ops)
                  (set_inputs port_one_frame
                     ([Byte.x00; Byte.xff] ++ InputPortSignal0 port_one_frame)
                     (InputPortSignal1 port_one_frame))))
  = (1, Some 1).
Proof.
  assert (Hv : input_valid (InputPortSignal1 port_one_frame)) by reflexivity.
  assert (Hne : InputPortSignal0 port_one_frame <> []) by discriminate.
  assert (Hno : ~ In header_char [Byte.x00; Byte.xff]).
  { simpl. intros [H|[H|H]]; [discriminate H | discriminate H | exact H]. }
  split; [exact sbgc_discards_before_header|].
  split; [exact sbgc_error_count_fits|].
  split; [exact Hv|]. split; [exact Hno|]. split; [exact Hne|].
  exact (garbage_prefix_ignored (ops := SBGC.parser_ops) port_one_frame
           [Byte.x00; Byte.xff] sbgc_discards_before_header
           sbgc_error_count_fits Hv Hno Hne).
Defined.

Lemma buffer_without_header_char_witness :
  discards_before_header SBGC.parser_ops /\
  error_count_fits SBGC.parser_ops /\
  input_valid (InputPortSignal1 port_no_header) /\
  InputPortSignal0 port_no_header <> [] /\
  ~ In header_char (InputPortSignal0 port_no_header) /\
  outputs (fst (mdlOutputs (ops := SBGC.parser_ops) port_no_header))
    = (0, Some 0).
Proof.
  assert (Hv : input_valid (InputPortSignal1 port_no_header)) by reflexivity.
  assert (Hne : InputPortSignal0 port_no_header <> []) by discriminate.
  assert (Hno : ~ In header_char (InputPortSignal0 port_no_header)).
  { simpl. intros [H|[H|H]]; [discriminate H | discriminate H | exact H]. }
  split; [exact sbgc_discards_before_header|].
  split; [exact sbgc_error_count_fits|].
  split; [exact Hv|]. split; [exact Hne|]. split; [exact Hno|].
  exact (proj1 (buffer_without_header_char (ops := SBGC.parser_ops)
                  port_no_header sbgc_discards_before_header
                  sbgc_error_count_fits Hv Hne Hno)).
Defined.
